(** * FighterNFT: a shallow embedding of the contract and its ownership and
    access-control properties.

    The contract is an ERC-721 registry whose tokens carry three encrypted
    attributes.  Storage is modelled field by field (Solidity mappings are
    total functions with a zero default, dynamic arrays are lists indexed
    through [N]), unsigned integers are [N] with the checked arithmetic of
    Solidity 0.8 written out (overflow and underflow raise [Panic 0x11], an
    array access out of bounds [Panic 0x32], [pop] on an empty array
    [Panic 0x31]), and every function is a computation in a state-and-revert
    monad.  A reverting external call discards its writes ([external]).
    Events are not modelled. *)

From Stdlib Require Import NArith List Lia Bool.
From stdpp Require Import base numbers list functions.

Local Open Scope N_scope.

(** ** Machine types *)

(** Addresses, unsigned integers and handles of encrypted values are all
    natural numbers; the names only document the Solidity type. *)
Abbreviation address := N (only parsing).
Abbreviation uint256 := N (only parsing).
Abbreviation uint32 := N (only parsing).
Abbreviation euint32 := N (only parsing).

Definition MAX_UINT256 : N := 2 ^ 256 - 1.
Definition MAX_UINT32 : N := 2 ^ 32 - 1.
Definition zero_address : address := 0.

Definition PANIC_ARITHMETIC : N := 17.
Definition PANIC_EMPTY_POP : N := 49.
Definition PANIC_OUT_OF_BOUNDS : N := 50.

Inductive error : Type :=
| FighterDoesNotExist (tokenId : uint256)
| TokenAlreadyMinted (tokenId : uint256)
| NotAuthorized
| InvalidAddress
| AttributeTotalMismatch
| AttributeOutOfRange
| Panic (code : N).

Inductive result (A : Type) : Type :=
| Ok (a : A)
| Revert (e : error).
Arguments Ok {A} a.
Arguments Revert {A} e.

Definition rbind {A B} (r : result A) (k : A -> result B) : result B :=
  match r with
  | Ok a => k a
  | Revert e => Revert e
  end.

Notation "x <-- r ; k" := (rbind r (fun x => k))
  (at level 20, r at level 100, k at level 200, only parsing).

Definition checked_add (max a b : N) : result N :=
  if a + b <=? max then Ok (a + b) else Revert (Panic PANIC_ARITHMETIC).

Definition checked_sub (a b : N) : result N :=
  if b <=? a then Ok (a - b) else Revert (Panic PANIC_ARITHMETIC).

(** ** The encryption collaborator *)

(** Modelled from the spec: the FHE library ([FHE.asEuint32], [FHE.allow],
    [FHE.allowThis]) is an external dependency.  Following the interface the
    spec gives for it, [encrypt] is a pure, deterministic function of the
    value, a grant is an idempotent set insert, and nothing is ever removed
    from a reader set.  [plaintext] records the value behind each handle,
    [acl] the reader set of each handle, and [next_handle] counts the
    encryptions served (it starts at 1 and takes no part in the choice of a
    handle). *)
Record fhe_state : Type := mkFhe {
  next_handle : N;
  plaintext : euint32 -> uint32;
  acl : euint32 -> address -> bool
}.

(** Modelled from the spec: the handle of a value.  It depends on the value
    alone, two values never share a handle, and no value has the handle [0]
    of an unset storage slot. *)
Definition handle_of (v : uint32) : euint32 := v + 1.

(** Modelled from the spec: [encrypt] returns the handle of the value.
    Encrypting a value again returns the handle it had, with the reader set
    that handle has accumulated.  The collaborator is taken to be available:
    its failure ([EncryptionUnavailable]) reverts the whole call and is not
    modelled. *)
Definition fhe_encrypt (v : uint32) (f : fhe_state) : euint32 * fhe_state :=
  let h := handle_of v in
  (h, mkFhe (next_handle f + 1) (<[h := v]> (plaintext f)) (acl f)).

(** Modelled from the spec: [grant] inserts the grantee into the reader set
    of the handle; granting twice changes nothing. *)
Definition fhe_grant (h : euint32) (who : address) (f : fhe_state) : fhe_state :=
  mkFhe (next_handle f) (plaintext f) (<[h := <[who := true]> (acl f h)]> (acl f)).

(** ** Contract storage *)

Record FighterAttributes : Type := mkAttributes {
  agility : euint32;
  strength : euint32;
  stamina : euint32
}.

Definition _TOTAL_ATTRIBUTE_POINTS : uint32 := 10.

Record state : Type := mkState {
  _nextTokenId : uint256;
  _totalMinted : uint256;
  _owners : uint256 -> address;
  _balances : address -> uint256;
  _tokenApprovals : uint256 -> address;
  _operatorApprovals : address -> address -> bool;
  _fighterAttributes : uint256 -> FighterAttributes;
  _ownedTokens : address -> list uint256;
  _ownedTokensIndex : uint256 -> uint256;
  fhe : fhe_state
}.

Definition genesis : state :=
  mkState 1 0 (fun _ => 0) (fun _ => 0) (fun _ => 0) (fun _ _ => false)
    (fun _ => mkAttributes 0 0 0) (fun _ => []) (fun _ => 0)
    (mkFhe 1 (fun _ => 0) (fun _ _ => false)).

Definition set_nextTokenId (v : uint256) (s : state) : state :=
  mkState v (_totalMinted s) (_owners s) (_balances s) (_tokenApprovals s)
    (_operatorApprovals s) (_fighterAttributes s) (_ownedTokens s)
    (_ownedTokensIndex s) (fhe s).

Definition set_totalMinted (v : uint256) (s : state) : state :=
  mkState (_nextTokenId s) v (_owners s) (_balances s) (_tokenApprovals s)
    (_operatorApprovals s) (_fighterAttributes s) (_ownedTokens s)
    (_ownedTokensIndex s) (fhe s).

Definition set_owners (v : uint256 -> address) (s : state) : state :=
  mkState (_nextTokenId s) (_totalMinted s) v (_balances s) (_tokenApprovals s)
    (_operatorApprovals s) (_fighterAttributes s) (_ownedTokens s)
    (_ownedTokensIndex s) (fhe s).

Definition set_balances (v : address -> uint256) (s : state) : state :=
  mkState (_nextTokenId s) (_totalMinted s) (_owners s) v (_tokenApprovals s)
    (_operatorApprovals s) (_fighterAttributes s) (_ownedTokens s)
    (_ownedTokensIndex s) (fhe s).

Definition set_tokenApprovals (v : uint256 -> address) (s : state) : state :=
  mkState (_nextTokenId s) (_totalMinted s) (_owners s) (_balances s) v
    (_operatorApprovals s) (_fighterAttributes s) (_ownedTokens s)
    (_ownedTokensIndex s) (fhe s).

Definition set_operatorApprovals (v : address -> address -> bool) (s : state) : state :=
  mkState (_nextTokenId s) (_totalMinted s) (_owners s) (_balances s)
    (_tokenApprovals s) v (_fighterAttributes s) (_ownedTokens s)
    (_ownedTokensIndex s) (fhe s).

Definition set_fighterAttributes (v : uint256 -> FighterAttributes) (s : state) : state :=
  mkState (_nextTokenId s) (_totalMinted s) (_owners s) (_balances s)
    (_tokenApprovals s) (_operatorApprovals s) v (_ownedTokens s)
    (_ownedTokensIndex s) (fhe s).

Definition set_ownedTokens (v : address -> list uint256) (s : state) : state :=
  mkState (_nextTokenId s) (_totalMinted s) (_owners s) (_balances s)
    (_tokenApprovals s) (_operatorApprovals s) (_fighterAttributes s) v
    (_ownedTokensIndex s) (fhe s).

Definition set_ownedTokensIndex (v : uint256 -> uint256) (s : state) : state :=
  mkState (_nextTokenId s) (_totalMinted s) (_owners s) (_balances s)
    (_tokenApprovals s) (_operatorApprovals s) (_fighterAttributes s)
    (_ownedTokens s) v (fhe s).

Definition set_fhe (v : fhe_state) (s : state) : state :=
  mkState (_nextTokenId s) (_totalMinted s) (_owners s) (_balances s)
    (_tokenApprovals s) (_operatorApprovals s) (_fighterAttributes s)
    (_ownedTokens s) (_ownedTokensIndex s) v.

(** ** The state-and-revert monad *)

(** A computation returns its result together with the storage as it stands
    when it stops; after a revert that storage holds the writes made so far,
    and it is [external] that throws them away. *)
Definition M (A : Type) : Type := state -> result A * state.

Definition ret {A} (a : A) : M A := fun s => (Ok a, s).

Definition bind {A B} (m : M A) (k : A -> M B) : M B :=
  fun s => match m s with
           | (Ok a, s') => k a s'
           | (Revert e, s') => (Revert e, s')
           end.

Definition revert {A} (e : error) : M A := fun s => (Revert e, s).
Definition gets {A} (f : state -> A) : M A := fun s => (Ok (f s), s).
Definition modify (f : state -> state) : M unit := fun s => (Ok tt, f s).
Definition lift {A} (r : result A) : M A := fun s => (r, s).

Notation "x <- m ; k" := (bind m (fun x => k))
  (at level 20, m at level 100, k at level 200, only parsing).

Definition external {A} (m : M A) (s : state) : result A * state :=
  match m s with
  | (Ok a, s') => (Ok a, s')
  | (Revert e, _) => (Revert e, s)
  end.

(** ** Storage arrays [_ownedTokens[owner]] *)

Definition array_length (owner : address) : M uint256 :=
  gets (fun s => N.of_nat (length (_ownedTokens s owner))).

Definition array_read (owner : address) (i : uint256) : M uint256 :=
  fun s => match _ownedTokens s owner !! N.to_nat i with
           | Some v => (Ok v, s)
           | None => (Revert (Panic PANIC_OUT_OF_BOUNDS), s)
           end.

Definition array_write (owner : address) (i v : uint256) : M unit :=
  fun s => let l := _ownedTokens s owner in
           if i <? N.of_nat (length l)
           then (Ok tt, set_ownedTokens (<[owner := <[N.to_nat i := v]> l]> (_ownedTokens s)) s)
           else (Revert (Panic PANIC_OUT_OF_BOUNDS), s).

Definition array_pop (owner : address) : M unit :=
  fun s => let l := _ownedTokens s owner in
           match l with
           | [] => (Revert (Panic PANIC_EMPTY_POP), s)
           | _ :: _ => (Ok tt, set_ownedTokens (<[owner := take (Nat.pred (length l)) l]> (_ownedTokens s)) s)
           end.

Definition array_push (owner : address) (v : uint256) : M unit :=
  modify (fun s => set_ownedTokens (<[owner := _ownedTokens s owner ++ [v]]> (_ownedTokens s)) s).

(** ** Library calls *)

(** Modelled from the spec: [FHE.asEuint32], [FHE.allow] and [FHE.allowThis]
    are the collaborator's [encrypt] and [grant], the latter to the contract's
    own address; [canRead] is membership in the reader set. *)

Definition FHE_asEuint32 (v : uint32) : M euint32 :=
  fun s => let (h, f) := fhe_encrypt v (fhe s) in (Ok h, set_fhe f s).

Definition FHE_allow (h : euint32) (who : address) : M unit :=
  modify (fun s => set_fhe (fhe_grant h who (fhe s)) s).

Definition FHE_allowThis (this : address) (h : euint32) : M unit :=
  FHE_allow h this.

Definition canRead (s : state) (h : euint32) (who : address) : bool :=
  acl (fhe s) h who.

(** ** Modifiers and private helpers *)

Definition _exists (tokenId : uint256) (s : state) : bool :=
  negb (_owners s tokenId =? zero_address).

Definition onlyExistingToken (tokenId : uint256) : M unit :=
  e <- gets (_exists tokenId);
  if negb e then revert (FighterDoesNotExist tokenId) else ret tt.

Definition nonZeroAddress (account : address) : M unit :=
  if account =? zero_address then revert InvalidAddress else ret tt.

Definition _isApprovedOrOwner (spender : address) (tokenId : uint256) (owner : address)
    (s : state) : bool :=
  (spender =? owner) || (_tokenApprovals s tokenId =? spender)
  || _operatorApprovals s owner spender.

Definition _validateDistribution (agility strength stamina : uint32) : result unit :=
  if (_TOTAL_ATTRIBUTE_POINTS <? agility) || (_TOTAL_ATTRIBUTE_POINTS <? strength)
     || (_TOTAL_ATTRIBUTE_POINTS <? stamina)
  then Revert AttributeOutOfRange
  else
    x <-- checked_add MAX_UINT32 agility strength;
    total <-- checked_add MAX_UINT32 x stamina;
    if negb (total =? _TOTAL_ATTRIBUTE_POINTS) then Revert AttributeTotalMismatch
    else Ok tt.

Definition _createAttributes (agility strength stamina : uint32) : M FighterAttributes :=
  _ <- lift (_validateDistribution agility strength stamina);
  a <- FHE_asEuint32 agility;
  b <- FHE_asEuint32 strength;
  c <- FHE_asEuint32 stamina;
  ret (mkAttributes a b c).

(** [attributes] is a storage reference: it is the key of the record in
    [_fighterAttributes], and the handles are read when they are used. *)
Definition _allowContract (this : address) (attributes : uint256) : M unit :=
  h1 <- gets (fun s => agility (_fighterAttributes s attributes));
  _ <- FHE_allowThis this h1;
  h2 <- gets (fun s => strength (_fighterAttributes s attributes));
  _ <- FHE_allowThis this h2;
  h3 <- gets (fun s => stamina (_fighterAttributes s attributes));
  FHE_allowThis this h3.

Definition _allowViewer (attributes : uint256) (viewer : address) : M unit :=
  h1 <- gets (fun s => agility (_fighterAttributes s attributes));
  _ <- FHE_allow h1 viewer;
  h2 <- gets (fun s => strength (_fighterAttributes s attributes));
  _ <- FHE_allow h2 viewer;
  h3 <- gets (fun s => stamina (_fighterAttributes s attributes));
  FHE_allow h3 viewer.

Definition _beforeTokenTransfer (from to : address) (tokenId : uint256) : M unit :=
  if from =? to then ret tt
  else
    _ <- (if negb (from =? zero_address) then
          len <- array_length from;
          lastIndex <- lift (checked_sub len 1);
          tokenIndex <- gets (fun s => _ownedTokensIndex s tokenId);
          _ <- (if negb (tokenIndex =? lastIndex) then
                lastTokenId <- array_read from lastIndex;
                _ <- array_write from tokenIndex lastTokenId;
                modify (fun s => set_ownedTokensIndex
                                   (<[lastTokenId := tokenIndex]> (_ownedTokensIndex s)) s)
              else ret tt);
          _ <- array_pop from;
          modify (fun s => set_ownedTokensIndex (<[tokenId := 0]> (_ownedTokensIndex s)) s)
        else ret tt);
    if negb (to =? zero_address) then
      len <- array_length to;
      _ <- modify (fun s => set_ownedTokensIndex (<[tokenId := len]> (_ownedTokensIndex s)) s);
      array_push to tokenId
    else ret tt.

Definition _afterTokenTransfer (from to : address) (tokenId : uint256) : M unit :=
  if negb (from =? zero_address) && negb (to =? zero_address)
  then _allowViewer tokenId to
  else ret tt.

Definition _mint (to : address) (tokenId : uint256) : M unit :=
  _ <- nonZeroAddress to;
  e <- gets (_exists tokenId);
  if e then revert (TokenAlreadyMinted tokenId)
  else
    _ <- _beforeTokenTransfer zero_address to tokenId;
    b <- gets (fun s => _balances s to);
    b' <- lift (checked_add MAX_UINT256 b 1);
    _ <- modify (fun s => set_balances (<[to := b']> (_balances s)) s);
    _ <- modify (fun s => set_owners (<[tokenId := to]> (_owners s)) s);
    _afterTokenTransfer zero_address to tokenId.

Definition _transfer (msg_sender from to : address) (tokenId : uint256) : M unit :=
  _ <- nonZeroAddress to;
  e <- gets (_exists tokenId);
  if negb e then revert (FighterDoesNotExist tokenId)
  else
    owner <- gets (fun s => _owners s tokenId);
    if negb (owner =? from) then revert NotAuthorized
    else
      ok <- gets (_isApprovedOrOwner msg_sender tokenId owner);
      if negb ok then revert NotAuthorized
      else if to =? zero_address then revert InvalidAddress
      else
        _ <- _beforeTokenTransfer from to tokenId;
        _ <- modify (fun s => set_tokenApprovals (<[tokenId := 0]> (_tokenApprovals s)) s);
        bf <- gets (fun s => _balances s from);
        bf' <- lift (checked_sub bf 1);
        _ <- modify (fun s => set_balances (<[from := bf']> (_balances s)) s);
        bt <- gets (fun s => _balances s to);
        bt' <- lift (checked_add MAX_UINT256 bt 1);
        _ <- modify (fun s => set_balances (<[to := bt']> (_balances s)) s);
        _ <- modify (fun s => set_owners (<[tokenId := to]> (_owners s)) s);
        _afterTokenTransfer from to tokenId.

(** The receiver hook of [safeTransferFrom] is a call into another contract,
    whose code is not part of this repository: [accepted] is what
    [_checkOnERC721Received] returns ([true] when the receiver has no code or
    answers with the selector, [false] when it answers with anything else or
    reverts).  The calls the receiver may make back into this contract while
    the hook runs are not part of this function: they run after [_transfer]
    has completed and before the final check, so when the hook is accepted
    they are the transactions that follow in a run, and when it is not they
    are discarded with the whole call. *)
Definition _checkOnERC721Received (accepted : bool) : M bool := ret accepted.

(** ** External functions *)

Definition totalSupply : M uint256 := gets _totalMinted.

Definition balanceOf (owner : address) : M uint256 :=
  _ <- nonZeroAddress owner;
  gets (fun s => _balances s owner).

Definition ownerOf (tokenId : uint256) : M address :=
  _ <- onlyExistingToken tokenId;
  gets (fun s => _owners s tokenId).

Definition getApproved (tokenId : uint256) : M address :=
  _ <- onlyExistingToken tokenId;
  gets (fun s => _tokenApprovals s tokenId).

Definition isApprovedForAll (owner operator : address) : M bool :=
  gets (fun s => _operatorApprovals s owner operator).

Definition fightersOf (owner : address) : M (list uint256) :=
  gets (fun s => _ownedTokens s owner).

Definition getEncryptedAttributes (tokenId : uint256) : M FighterAttributes :=
  _ <- onlyExistingToken tokenId;
  gets (fun s => _fighterAttributes s tokenId).

Definition mintFighter (this msg_sender : address)
    (agilityPoints strengthPoints staminaPoints : uint32) : M uint256 :=
  tokenId <- gets _nextTokenId;
  n <- gets _nextTokenId;
  n' <- lift (checked_add MAX_UINT256 n 1);
  _ <- modify (set_nextTokenId n');
  m <- gets _totalMinted;
  m' <- lift (checked_add MAX_UINT256 m 1);
  _ <- modify (set_totalMinted m');
  encryptedAttributes <- _createAttributes agilityPoints strengthPoints staminaPoints;
  _ <- modify (fun s => set_fighterAttributes
                        (<[tokenId := encryptedAttributes]> (_fighterAttributes s)) s);
  _ <- _allowContract this tokenId;
  _ <- _allowViewer tokenId msg_sender;
  _ <- _mint msg_sender tokenId;
  ret tokenId.

Definition updateAttributes (this msg_sender : address) (tokenId : uint256)
    (agilityPoints strengthPoints staminaPoints : uint32) : M unit :=
  _ <- onlyExistingToken tokenId;
  owner <- gets (fun s => _owners s tokenId);
  ok <- gets (_isApprovedOrOwner msg_sender tokenId owner);
  if negb ok then revert NotAuthorized
  else
    encryptedAttributes <- _createAttributes agilityPoints strengthPoints staminaPoints;
    _ <- modify (fun s => set_fighterAttributes
                          (<[tokenId := encryptedAttributes]> (_fighterAttributes s)) s);
    _ <- _allowContract this tokenId;
    _allowViewer tokenId owner.

Definition allowViewer (msg_sender : address) (tokenId : uint256) (viewer : address) : M unit :=
  _ <- onlyExistingToken tokenId;
  if viewer =? zero_address then revert InvalidAddress
  else
    owner <- gets (fun s => _owners s tokenId);
    ok <- gets (_isApprovedOrOwner msg_sender tokenId owner);
    if negb ok then revert NotAuthorized
    else _allowViewer tokenId viewer.

Definition approve (msg_sender to : address) (tokenId : uint256) : M unit :=
  _ <- onlyExistingToken tokenId;
  owner <- gets (fun s => _owners s tokenId);
  op <- gets (fun s => _operatorApprovals s owner msg_sender);
  if negb (msg_sender =? owner) && negb op then revert NotAuthorized
  else modify (fun s => set_tokenApprovals (<[tokenId := to]> (_tokenApprovals s)) s).

Definition setApprovalForAll (msg_sender operator : address) (approved : bool) : M unit :=
  modify (fun s => set_operatorApprovals
                     (<[msg_sender := <[operator := approved]> (_operatorApprovals s msg_sender)]>
                        (_operatorApprovals s)) s).

Definition transferFrom (msg_sender from to : address) (tokenId : uint256) : M unit :=
  _transfer msg_sender from to tokenId.

Definition safeTransferFrom (msg_sender from to : address) (tokenId : uint256)
    (accepted : bool) : M unit :=
  _ <- _transfer msg_sender from to tokenId;
  ok <- _checkOnERC721Received accepted;
  if negb ok then revert NotAuthorized else ret tt.

(** ** Transactions and reachable states *)

Inductive call : Type :=
| MintFighter (agilityPoints strengthPoints staminaPoints : uint32)
| UpdateAttributes (tokenId : uint256) (agilityPoints strengthPoints staminaPoints : uint32)
| AllowViewer (tokenId : uint256) (viewer : address)
| Approve (to : address) (tokenId : uint256)
| SetApprovalForAll (operator : address) (approved : bool)
| TransferFrom (from to : address) (tokenId : uint256)
| SafeTransferFrom (from to : address) (tokenId : uint256) (accepted : bool).

(** The value a call returns is the minted id for [mintFighter] and nothing
    for the other functions. *)
Definition dispatch (this msg_sender : address) (c : call) : M (option uint256) :=
  match c with
  | MintFighter a b c => id <- mintFighter this msg_sender a b c; ret (Some id)
  | UpdateAttributes t a b c => _ <- updateAttributes this msg_sender t a b c; ret None
  | AllowViewer t v => _ <- allowViewer msg_sender t v; ret None
  | Approve to t => _ <- approve msg_sender to t; ret None
  | SetApprovalForAll op b => _ <- setApprovalForAll msg_sender op b; ret None
  | TransferFrom from to t => _ <- transferFrom msg_sender from to t; ret None
  | SafeTransferFrom from to t ok => _ <- safeTransferFrom msg_sender from to t ok; ret None
  end.

Definition step (this : address) (s : state) (tx : address * call) : state :=
  snd (external (dispatch this (fst tx) (snd tx)) s).

Definition run (this : address) (txs : list (address * call)) (s : state) : state :=
  fold_left (step this) txs s.

Definition reachable (this : address) (s : state) : Prop :=
  exists txs, run this txs genesis = s.

Fixpoint minted_ids (this : address) (txs : list (address * call)) (s : state) : list uint256 :=
  match txs with
  | [] => []
  | tx :: rest =>
      match external (dispatch this (fst tx) (snd tx)) s with
      | (Ok (Some id), s') => id :: minted_ids this rest s'
      | (_, s') => minted_ids this rest s'
      end
  end.

(** ** A concrete run

    The accounts and calls of the test suite: Alice mints, grants and
    transfers to Bob; the run below also exercises the removal of a token that
    is not the last of its owner's array. *)

Definition alice : address := 101.
Definition bob : address := 102.
Definition carol : address := 103.
Definition contract_address : address := 999.

Definition four_mints : list (address * call) :=
  [(alice, MintFighter 4 3 3); (alice, MintFighter 3 4 3);
   (alice, MintFighter 2 4 4); (bob, MintFighter 1 1 8)].

Definition minted_state : state := run contract_address four_mints genesis.

Definition moved_state : state :=
  run contract_address (four_mints ++ [(alice, TransferFrom alice bob 1)]) genesis.

(** Alice transfers token 2 to herself. *)
Definition self_moved_state : state :=
  run contract_address (four_mints ++ [(alice, TransferFrom alice alice 2)]) genesis.

(** Alice approves Carol for token 2 and lets Bob view it; Carol, the
    delegate, then rewrites the attributes. *)
Definition delegated_state : state :=
  run contract_address (four_mints ++ [(alice, Approve carol 2); (alice, AllowViewer 2 bob)])
    genesis.

Definition rewritten_state : state :=
  run contract_address
    (four_mints ++ [(alice, Approve carol 2); (alice, AllowViewer 2 bob);
                    (carol, UpdateAttributes 2 2 5 3)]) genesis.




(** ** Specification-level notions *)

(** Ids handed out so far: [1 .. _totalMinted]. *)
Definition minted_tokens (s : state) : list uint256 :=
  N.of_nat <$> seq 1 (N.to_nat (_totalMinted s)).

(** Number of minted tokens whose recorded owner is [owner]. *)
Definition owned_count (s : state) (owner : address) : nat :=
  length (filter (fun t => _owners s t = owner) (minted_tokens s)).

(** The owners of the minted tokens, each listed once. *)
Definition owner_set (s : state) : list address :=
  remove_dups (_owners s <$> minted_tokens s).

Definition handles (a : FighterAttributes) : list euint32 :=
  [agility a; strength a; stamina a].

(** The grants [_allowViewer] issues: one per handle of the record. *)
Definition grant_all (a : FighterAttributes) (who : address) (f : fhe_state) : fhe_state :=
  fhe_grant (stamina a) who (fhe_grant (strength a) who (fhe_grant (agility a) who f)).

(** The record [_createAttributes] returns on a valid distribution, and the
    collaborator's state after its three encryptions. *)
Definition new_attributes (a b c : uint32) : FighterAttributes :=
  mkAttributes (handle_of a) (handle_of b) (handle_of c).

Definition encrypted (a b c : uint32) (f : fhe_state) : fhe_state :=
  mkFhe (next_handle f + 3)
    (<[handle_of c := c]>
       (<[handle_of b := b]> (<[handle_of a := a]> (plaintext f))))
    (acl f).

(** The storage of [mintFighter] at the point where it calls [_mint]: the
    counters are advanced, the record is stored under the new id and granted
    to the contract and to the caller. *)
Definition staged_mint (this msg_sender : address) (a b c : uint32) (s : state) : state :=
  let A := new_attributes a b c in
  set_fhe (grant_all A msg_sender (grant_all A this (encrypted a b c (fhe s))))
    (set_fighterAttributes (<[_nextTokenId s := A]> (_fighterAttributes s))
       (set_totalMinted (_totalMinted s + 1) (set_nextTokenId (_nextTokenId s + 1) s))).

(** The storage after a successful [updateAttributes]. *)
Definition updated (this : address) (tokenId : uint256) (a b c : uint32) (s : state) : state :=
  let A := new_attributes a b c in
  set_fhe (grant_all A (_owners s tokenId) (grant_all A this (encrypted a b c (fhe s))))
    (set_fighterAttributes (<[tokenId := A]> (_fighterAttributes s)) s).

(** The enumeration is synchronised: the reverse index of an existing token
    is its position in its owner's array, and every array slot holds a token
    of that owner whose reverse index is the slot. *)
Definition enumeration_ok (owners : uint256 -> address) (toks : address -> list uint256)
    (idx : uint256 -> uint256) : Prop :=
  (forall t, owners t <> 0 -> toks (owners t) !! N.to_nat (idx t) = Some t)
  /\ (forall o i t, toks o !! i = Some t ->
        owners t = o /\ o <> 0 /\ idx t = N.of_nat i).

(** The array and the reverse index of the enumeration agree with
    [_owners], the balance counter agrees with the array, and ids are
    allocated contiguously. *)
Record ownership_inv (s : state) : Prop := mkOwnershipInv {
  inv_counter : _nextTokenId s = _totalMinted s + 1;
  inv_bound : _nextTokenId s <= MAX_UINT256;
  inv_exists : forall t, _owners s t <> 0 <-> 1 <= t < _nextTokenId s;
  inv_enum : enumeration_ok (_owners s) (_ownedTokens s) (_ownedTokensIndex s);
  inv_balance : forall o, _balances s o = N.of_nat (length (_ownedTokens s o))
}.

(** Every handle stored for an existing token is the handle of the value
    recorded behind it. *)
Record cipher_inv (s : state) : Prop := mkCipherInv {
  inv_handle_value : forall t h, _owners s t <> 0 ->
      In h (handles (_fighterAttributes s t)) -> handle_of (plaintext (fhe s) h) = h
}.

(** The current handles of every existing token are readable by the contract
    itself and by the owner of the token, and the values behind them pass the
    validation of the contract. *)
Record access_inv (this : address) (s : state) : Prop := mkAccessInv {
  inv_service_reads : forall t h, _owners s t <> 0 ->
      In h (handles (_fighterAttributes s t)) -> acl (fhe s) h this = true;
  inv_owner_reads : forall t h, _owners s t <> 0 ->
      In h (handles (_fighterAttributes s t)) -> acl (fhe s) h (_owners s t) = true;
  inv_distribution : forall t, _owners s t <> 0 ->
      _validateDistribution
        (plaintext (fhe s) (agility (_fighterAttributes s t)))
        (plaintext (fhe s) (strength (_fighterAttributes s t)))
        (plaintext (fhe s) (stamina (_fighterAttributes s t))) = Ok tt
}.

(** Fields other than the enumeration array and its reverse index. *)
Record same_but_enumeration (s s' : state) : Prop := mkSameButEnumeration {
  sbe_nextTokenId : _nextTokenId s' = _nextTokenId s;
  sbe_totalMinted : _totalMinted s' = _totalMinted s;
  sbe_owners : _owners s' = _owners s;
  sbe_balances : _balances s' = _balances s;
  sbe_tokenApprovals : _tokenApprovals s' = _tokenApprovals s;
  sbe_operatorApprovals : _operatorApprovals s' = _operatorApprovals s;
  sbe_fighterAttributes : _fighterAttributes s' = _fighterAttributes s;
  sbe_fhe : fhe s' = fhe s
}.

(** Fields other than the grant store. *)
Record same_but_fhe (s s' : state) : Prop := mkSameButFhe {
  sbf_nextTokenId : _nextTokenId s' = _nextTokenId s;
  sbf_totalMinted : _totalMinted s' = _totalMinted s;
  sbf_owners : _owners s' = _owners s;
  sbf_balances : _balances s' = _balances s;
  sbf_tokenApprovals : _tokenApprovals s' = _tokenApprovals s;
  sbf_operatorApprovals : _operatorApprovals s' = _operatorApprovals s;
  sbf_fighterAttributes : _fighterAttributes s' = _fighterAttributes s;
  sbf_ownedTokens : _ownedTokens s' = _ownedTokens s;
  sbf_ownedTokensIndex : _ownedTokensIndex s' = _ownedTokensIndex s
}.

(** ** Symbolic execution *)

Ltac unfold_monad :=
  cbv [bind ret gets modify lift revert rbind
       array_length array_read array_write array_pop array_push
       FHE_asEuint32 FHE_allow FHE_allowThis onlyExistingToken nonZeroAddress
       _allowContract _allowViewer _afterTokenTransfer _checkOnERC721Received
       zero_address _exists negb andb orb].

Ltac simpl_state :=
  cbn [_nextTokenId _totalMinted _owners _balances _tokenApprovals _operatorApprovals
       _fighterAttributes _ownedTokens _ownedTokensIndex fhe
       set_nextTokenId set_totalMinted set_owners set_balances set_tokenApprovals
       set_operatorApprovals set_fighterAttributes set_ownedTokens set_ownedTokensIndex
       set_fhe fst snd next_handle plaintext acl fhe_encrypt fhe_grant
       agility strength stamina].

Ltac mred := unfold_monad; simpl_state.

(** Closes a goal whose premise equates a revert with a success. *)
Ltac stuck := let H := fresh in intros H; discriminate H.

Lemma ins_eq {V} (f : N -> V) k v : (<[k := v]> f) k = v.
Proof. apply fn_lookup_insert. Qed.

Lemma ins_ne {V} (f : N -> V) k k' v : k <> k' -> (<[k := v]> f) k' = f k'.
Proof. apply fn_lookup_insert_ne. Qed.

Ltac fsimpl := repeat (rewrite ins_eq || rewrite ins_ne by congruence).

(** ** Attribute validation *)

Lemma validate_ok a s st :
  _validateDistribution a s st = Ok tt <-> a <= 10 /\ s <= 10 /\ st <= 10 /\ a + s + st = 10.
Proof.
  unfold _validateDistribution, _TOTAL_ATTRIBUTE_POINTS, checked_add, rbind, MAX_UINT32.
  destruct (N.ltb_spec 10 a); simpl; [split; [discriminate | lia] |].
  destruct (N.ltb_spec 10 s); simpl; [split; [discriminate | lia] |].
  destruct (N.ltb_spec 10 st); simpl; [split; [discriminate | lia] |].
  destruct (N.leb_spec (a + s) (2 ^ 32 - 1)); [| lia].
  destruct (N.leb_spec (a + s + st) (2 ^ 32 - 1)); [| lia].
  destruct (N.eqb_spec (a + s + st) 10); simpl; split; try discriminate; try lia; auto.
Qed.

Lemma validate_out_of_range a s st :
  10 < a \/ 10 < s \/ 10 < st ->
  _validateDistribution a s st = Revert AttributeOutOfRange.
Proof.
  intros H. unfold _validateDistribution, _TOTAL_ATTRIBUTE_POINTS.
  destruct (N.ltb_spec 10 a); simpl; [reflexivity |].
  destruct (N.ltb_spec 10 s); simpl; [reflexivity |].
  destruct (N.ltb_spec 10 st); simpl; [reflexivity | lia].
Qed.

Lemma validate_mismatch a s st :
  a <= 10 -> s <= 10 -> st <= 10 -> a + s + st <> 10 ->
  _validateDistribution a s st = Revert AttributeTotalMismatch.
Proof.
  intros Ha Hs Hst Hsum.
  unfold _validateDistribution, _TOTAL_ATTRIBUTE_POINTS, checked_add, rbind, MAX_UINT32.
  destruct (N.ltb_spec 10 a); [lia |].
  destruct (N.ltb_spec 10 s); [lia |].
  destruct (N.ltb_spec 10 st); [lia |]. simpl.
  destruct (N.leb_spec (a + s) (2 ^ 32 - 1)); [| lia].
  destruct (N.leb_spec (a + s + st) (2 ^ 32 - 1)); [| lia].
  destruct (N.eqb_spec (a + s + st) 10); [lia | reflexivity].
Qed.

Lemma validate_cases a s st :
  _validateDistribution a s st = Ok tt
  \/ _validateDistribution a s st = Revert AttributeOutOfRange
  \/ _validateDistribution a s st = Revert AttributeTotalMismatch.
Proof.
  destruct (N.ltb_spec 10 a); [right; left; apply validate_out_of_range; lia |].
  destruct (N.ltb_spec 10 s); [right; left; apply validate_out_of_range; lia |].
  destruct (N.ltb_spec 10 st); [right; left; apply validate_out_of_range; lia |].
  destruct (N.eq_dec (a + s + st) 10).
  - left. apply validate_ok. lia.
  - right; right. now apply validate_mismatch.
Qed.

(** [_createAttributes] either stops at the validation, leaving the storage
    as it was, or returns the handles of the three values. *)
Lemma createAttributes_revert a b c e s :
  _validateDistribution a b c = Revert e ->
  _createAttributes a b c s = (Revert e, s).
Proof. intros H. unfold _createAttributes. mred. now rewrite H. Qed.

Lemma createAttributes_ok a b c s :
  _validateDistribution a b c = Ok tt ->
  _createAttributes a b c s =
    (Ok (new_attributes a b c), set_fhe (encrypted a b c (fhe s)) s).
Proof.
  intros H. unfold _createAttributes, new_attributes, encrypted. mred. rewrite H.
  replace (next_handle (fhe s) + 1 + 1 + 1) with (next_handle (fhe s) + 3) by lia.
  reflexivity.
Qed.

(** ** The enumeration hook [_beforeTokenTransfer] *)

Lemma beforeTokenTransfer_self s a t : _beforeTokenTransfer a a t s = (Ok tt, s).
Proof. unfold _beforeTokenTransfer. now rewrite N.eqb_refl. Qed.

Lemma beforeTokenTransfer_mint s to t :
  to <> 0 ->
  exists s',
    _beforeTokenTransfer zero_address to t s = (Ok tt, s')
    /\ same_but_enumeration s s'
    /\ _ownedTokens s' to = _ownedTokens s to ++ [t]
    /\ (forall o, o <> to -> _ownedTokens s' o = _ownedTokens s o)
    /\ _ownedTokensIndex s' t = N.of_nat (length (_ownedTokens s to))
    /\ (forall x, x <> t -> _ownedTokensIndex s' x = _ownedTokensIndex s x).
Proof.
  intros Hto. unfold _beforeTokenTransfer, zero_address.
  destruct (N.eqb_spec 0 to); [congruence |].
  rewrite N.eqb_refl. destruct (N.eqb_spec to 0); [congruence |].
  mred. eexists. split; [reflexivity |]. simpl_state.
  split; [now constructor |]. fsimpl.
  refine (conj _ (conj _ (conj _ _))); try reflexivity; intros; now fsimpl.
Qed.

(** Moving a token between two distinct owners: the last token of the old
    owner's array takes the freed slot, the array shrinks by one, and the
    token is appended to the new owner's array. *)
Lemma beforeTokenTransfer_move s from to t lastTok :
  from <> to -> from <> 0 -> to <> 0 ->
  _ownedTokens s from !! N.to_nat (_ownedTokensIndex s t) = Some t ->
  _ownedTokens s from !! Nat.pred (length (_ownedTokens s from)) = Some lastTok ->
  exists s',
    _beforeTokenTransfer from to t s = (Ok tt, s')
    /\ same_but_enumeration s s'
    /\ _ownedTokens s' to = _ownedTokens s to ++ [t]
    /\ _ownedTokens s' from =
         take (Nat.pred (length (_ownedTokens s from)))
           (<[N.to_nat (_ownedTokensIndex s t) := lastTok]> (_ownedTokens s from))
    /\ (forall o, o <> to -> o <> from -> _ownedTokens s' o = _ownedTokens s o)
    /\ _ownedTokensIndex s' t = N.of_nat (length (_ownedTokens s to))
    /\ (forall x, x <> t ->
          _ownedTokensIndex s' x =
            if x =? lastTok then _ownedTokensIndex s t else _ownedTokensIndex s x).
Proof.
  intros Hft Hf Ht Hi Hlast.
  pose proof (lookup_lt_Some _ _ _ Hi) as Hlen.
  unfold _beforeTokenTransfer, zero_address.
  destruct (N.eqb_spec from to); [congruence |].
  destruct (N.eqb_spec from 0); [congruence |].
  destruct (N.eqb_spec to 0); [congruence |].
  mred. unfold checked_sub.
  destruct (N.leb_spec 1 (N.of_nat (length (_ownedTokens s from)))); [| lia].
  replace (N.to_nat (N.of_nat (length (_ownedTokens s from)) - 1))
    with (Nat.pred (length (_ownedTokens s from))) by lia.
  destruct (N.eqb_spec (_ownedTokensIndex s t) (N.of_nat (length (_ownedTokens s from)) - 1))
    as [Heq | Hne]; mred.
  - assert (HtL : lastTok = t).
    { replace (Nat.pred (length (_ownedTokens s from)))
        with (N.to_nat (_ownedTokensIndex s t)) in Hlast by lia. congruence. }
    subst lastTok.
    destruct (_ownedTokens s from) as [| x0 l0] eqn:El; [simpl in Hlen; lia |].
    rewrite <- El in *.
    mred. eexists. split; [reflexivity |]. simpl_state.
    split; [now constructor |]. fsimpl.
    rewrite list_insert_id by assumption.
    refine (conj _ (conj _ (conj _ (conj _ _)))); try reflexivity.
    + intros o Ho1 Ho2. now fsimpl.
    + intros x Hx. fsimpl. destruct (N.eqb_spec x t); [congruence | reflexivity].
  - rewrite Hlast.
    destruct (N.ltb_spec (_ownedTokensIndex s t) (N.of_nat (length (_ownedTokens s from))));
      [| lia].
    mred. fsimpl.
    assert (Hlen' : length (<[N.to_nat (_ownedTokensIndex s t) := lastTok]> (_ownedTokens s from))
                    = length (_ownedTokens s from)) by apply length_insert.
    destruct (<[N.to_nat (_ownedTokensIndex s t) := lastTok]> (_ownedTokens s from))
      as [| y0 l1] eqn:El'; [simpl in Hlen'; lia |].
    rewrite <- El' in *. mred. fsimpl. rewrite Hlen'.
    eexists. split; [reflexivity |]. simpl_state.
    split; [now constructor |]. fsimpl.
    refine (conj _ (conj _ (conj _ (conj _ _)))); try reflexivity.
    + intros o Ho1 Ho2. now fsimpl.
    + intros x Hx. fsimpl.
      destruct (N.eqb_spec x lastTok) as [-> | Hxl]; now fsimpl.
Qed.

(** ** The enumeration under insertion and swap-removal *)

Lemma enumeration_insert owners toks idx toks' idx' to t :
  enumeration_ok owners toks idx ->
  owners t = 0 -> to <> 0 ->
  toks' to = toks to ++ [t] ->
  (forall o, o <> to -> toks' o = toks o) ->
  idx' t = N.of_nat (length (toks to)) ->
  (forall x, x <> t -> idx' x = idx x) ->
  enumeration_ok (<[t := to]> owners) toks' idx'.
Proof.
  intros [Hidx Harr] Ht Hto Htoks Hframe Hi Hiframe. split.
  - intros x Hx. destruct (N.eq_dec x t) as [-> | Hxt].
    + rewrite ins_eq, Htoks, Hi, Nat2N.id. apply list_lookup_middle. reflexivity.
    + rewrite ins_ne in * by congruence. rewrite Hiframe by assumption.
      specialize (Hidx x Hx).
      destruct (N.eq_dec (owners x) to) as [Heq | Hne].
      * rewrite Heq in *. rewrite Htoks. now apply lookup_app_l_Some.
      * now rewrite Hframe.
  - intros o i x Hl. destruct (N.eq_dec o to) as [-> | Hne].
    + rewrite Htoks in Hl. apply lookup_app_Some in Hl as [Hl | [Hlen Hl]].
      * destruct (Harr _ _ _ Hl) as (Ho & _ & Hix).
        assert (x <> t) by congruence.
        rewrite ins_ne by congruence. rewrite Hiframe by assumption. auto.
      * apply list_lookup_singleton_Some in Hl as [Hk ->].
        rewrite ins_eq, Hi. repeat split; auto. f_equal. lia.
    + rewrite Hframe in Hl by assumption.
      destruct (Harr _ _ _ Hl) as (Ho & Ho0 & Hix).
      assert (x <> t) by congruence.
      rewrite ins_ne by congruence. rewrite Hiframe by assumption. auto.
Qed.

Lemma enumeration_move owners toks idx toks' idx' from to t lastTok :
  enumeration_ok owners toks idx ->
  owners t = from -> from <> 0 -> to <> 0 -> from <> to ->
  toks from !! Nat.pred (length (toks from)) = Some lastTok ->
  toks' to = toks to ++ [t] ->
  toks' from = take (Nat.pred (length (toks from)))
                 (<[N.to_nat (idx t) := lastTok]> (toks from)) ->
  (forall o, o <> to -> o <> from -> toks' o = toks o) ->
  idx' t = N.of_nat (length (toks to)) ->
  (forall x, x <> t -> idx' x = if x =? lastTok then idx t else idx x) ->
  enumeration_ok (<[t := to]> owners) toks' idx'.
Proof.
  intros [Hidx Harr] Hown Hfrom Hto Hft Hlast Hto' Hfrom' Hframe Hi' Hiframe.
  assert (Hi : toks from !! N.to_nat (idx t) = Some t).
  { rewrite <- Hown. apply Hidx. congruence. }
  pose proof (lookup_lt_Some _ _ _ Hi) as Hlen.
  destruct (Harr _ _ _ Hlast) as (HownL & _ & HidxL).
  split.
  - intros x Hx. destruct (N.eq_dec x t) as [-> | Hxt].
    + rewrite ins_eq, Hto', Hi', Nat2N.id. apply list_lookup_middle. reflexivity.
    + rewrite ins_ne in * by congruence. rewrite Hiframe by assumption.
      specialize (Hidx x Hx).
      destruct (N.eqb_spec x lastTok) as [-> | HxL].
      * rewrite HownL, Hfrom'. apply lookup_take_Some. split.
        -- now apply list_lookup_insert_eq.
        -- assert (N.to_nat (idx t) <> Nat.pred (length (toks from))); [| lia].
           intros Heq. rewrite Heq in Hi. congruence.
      * destruct (N.eq_dec (owners x) to) as [Heq | Hne1].
        { rewrite Heq in *. rewrite Hto'. now apply lookup_app_l_Some. }
        destruct (N.eq_dec (owners x) from) as [Heq | Hne2].
        { rewrite Heq in *. rewrite Hfrom'.
          pose proof (lookup_lt_Some _ _ _ Hidx) as Hlenx.
          assert (N.to_nat (idx x) <> N.to_nat (idx t)).
          { intros Heq'. rewrite Heq' in Hidx. congruence. }
          assert (N.to_nat (idx x) <> Nat.pred (length (toks from))).
          { intros Heq'. rewrite Heq' in Hidx. congruence. }
          apply lookup_take_Some. split; [| lia].
          rewrite list_lookup_insert_ne by congruence. assumption. }
        now rewrite Hframe.
  - intros o j x Hl. destruct (N.eq_dec o to) as [-> | Hne1].
    { rewrite Hto' in Hl. apply lookup_app_Some in Hl as [Hl | [Hlenj Hl]].
      - destruct (Harr _ _ _ Hl) as (Ho & _ & Hix).
        assert (x <> t) by congruence.
        assert (x <> lastTok) by congruence.
        rewrite ins_ne by congruence. rewrite Hiframe by assumption.
        destruct (N.eqb_spec x lastTok); [congruence | auto].
      - apply list_lookup_singleton_Some in Hl as [Hk ->].
        rewrite ins_eq, Hi'. repeat split; auto. f_equal. lia. }
    destruct (N.eq_dec o from) as [-> | Hne2].
    { rewrite Hfrom' in Hl. apply lookup_take_Some in Hl as [Hl Hj].
      apply list_lookup_insert_Some in Hl as [(Hij & <- & Hjl) | (Hij & Hl)].
      - assert (lastTok <> t).
        { intros ->. destruct (Harr _ _ _ Hi) as (_ & _ & Hit). lia. }
        rewrite ins_ne by congruence. rewrite Hiframe by assumption.
        rewrite N.eqb_refl. repeat split; auto. lia.
      - destruct (Harr _ _ _ Hl) as (Ho & _ & Hix).
        assert (x <> t).
        { intros ->. lia. }
        assert (x <> lastTok).
        { intros ->. lia. }
        rewrite ins_ne by congruence. rewrite Hiframe by assumption.
        destruct (N.eqb_spec x lastTok); [congruence | auto]. }
    rewrite Hframe in Hl by assumption.
    destruct (Harr _ _ _ Hl) as (Ho & Ho0 & Hix).
    assert (x <> t) by congruence.
    assert (x <> lastTok) by congruence.
    rewrite ins_ne by congruence. rewrite Hiframe by assumption.
    destruct (N.eqb_spec x lastTok); [congruence | auto].
Qed.

(** ** Grants *)

Lemma acl_grant h who f h' x :
  acl (fhe_grant h who f) h' x = acl f h' x || ((h' =? h) && (x =? who)).
Proof.
  unfold fhe_grant. simpl.
  destruct (N.eqb_spec h' h) as [-> | Hh]; simpl.
  - rewrite ins_eq. destruct (N.eqb_spec x who) as [-> | Hx].
    + rewrite ins_eq. now rewrite orb_true_r.
    + rewrite ins_ne by congruence. now rewrite orb_false_r.
  - rewrite ins_ne by congruence. now rewrite orb_false_r.
Qed.

Lemma acl_grant_all a who f h x :
  acl (grant_all a who f) h x =
    acl f h x || ((x =? who) && ((h =? agility a) || (h =? strength a) || (h =? stamina a))).
Proof.
  unfold grant_all. rewrite !acl_grant.
  destruct (acl f h x), (x =? who), (h =? agility a), (h =? strength a), (h =? stamina a);
    reflexivity.
Qed.

Lemma next_handle_grant_all a who f : next_handle (grant_all a who f) = next_handle f.
Proof. reflexivity. Qed.

Lemma allowViewer_run t v s :
  _allowViewer t v s = (Ok tt, set_fhe (grant_all (_fighterAttributes s t) v (fhe s)) s).
Proof. reflexivity. Qed.

Lemma allowContract_run this t s :
  _allowContract this t s = (Ok tt, set_fhe (grant_all (_fighterAttributes s t) this (fhe s)) s).
Proof. reflexivity. Qed.

(** ** [_transfer] *)


Lemma transfer_inversion sender from to t s s' :
  _transfer sender from to t s = (Ok tt, s') ->
  to <> 0 /\ _owners s t = from /\ from <> 0
  /\ _isApprovedOrOwner sender t from s = true
  /\ exists s1,
       _beforeTokenTransfer from to t s = (Ok tt, s1)
       /\ 1 <= _balances s1 from
       /\ (<[from := _balances s1 from - 1]> (_balances s1)) to + 1 <= MAX_UINT256
       /\ s' = set_fhe (grant_all (_fighterAttributes s1 t) to (fhe s1))
                 (set_owners (<[t := to]> (_owners s1))
                    (set_balances
                       (<[to := (<[from := _balances s1 from - 1]> (_balances s1)) to + 1]>
                          (<[from := _balances s1 from - 1]> (_balances s1)))
                       (set_tokenApprovals (<[t := 0]> (_tokenApprovals s1)) s1))).
Proof.
  unfold _transfer, _exists, zero_address. mred.
  destruct (N.eqb_spec to 0) as [| Hto]; mred. 1: stuck.
  destruct (N.eqb_spec (_owners s t) 0) as [| Hex]; mred; [stuck |].
  destruct (N.eqb_spec (_owners s t) from) as [<- | Hown]; mred; [| stuck].
  destruct (_isApprovedOrOwner sender t (_owners s t) s) eqn:Hauth; mred; [| stuck].
  destruct (_beforeTokenTransfer (_owners s t) to t s) as [[[] | e] s1] eqn:Hbefore;
    [| stuck].
  unfold checked_sub, checked_add.
  destruct (N.leb_spec 1 (_balances s1 (_owners s t))) as [Hb1 |]; mred; [| stuck].
  destruct (N.leb_spec ((<[_owners s t := _balances s1 (_owners s t) - 1]> (_balances s1)) to + 1)
              MAX_UINT256) as [Hb2 |]; mred; [| stuck].
  destruct (N.eqb_spec (_owners s t) 0); [congruence |]. mred.
  intros Hret. injection Hret as <-.
  repeat (split; [assumption || reflexivity |]).
  exists s1. repeat (split; [assumption || reflexivity |]). reflexivity.
Qed.

Lemma ins_id {V} (f : N -> V) k x : (<[k := f k]> f) x = f x.
Proof. destruct (N.eq_dec k x) as [-> | Hne]; now fsimpl. Qed.

Lemma enumeration_ok_ext owners owners' toks toks' idx idx' :
  (forall x, owners' x = owners x) ->
  (forall o, toks' o = toks o) ->
  (forall x, idx' x = idx x) ->
  enumeration_ok owners toks idx -> enumeration_ok owners' toks' idx'.
Proof.
  intros Ho Ht Hi [Hidx Harr]. split.
  - intros x Hx. rewrite Ho in *. rewrite Ht, Hi. now apply Hidx.
  - intros o i x Hl. rewrite Ht in Hl. rewrite Ho, Hi. now apply Harr.
Qed.

Lemma transfer_ownership_inv sender from to t s s' :
  ownership_inv s ->
  _transfer sender from to t s = (Ok tt, s') ->
  ownership_inv s'.
Proof.
  intros [Hc Hb Hex Henum Hbal] Hrun.
  apply transfer_inversion in Hrun
    as (Hto & Hown & Hfrom & _ & s1 & Hbefore & Hb1 & Hb2 & ->).
  destruct (N.eq_dec from to) as [<- | Hft].
  - rewrite beforeTokenTransfer_self in Hbefore. injection Hbefore as <-.
    assert (Hbal' : forall o,
      (<[from := (<[from := _balances s from - 1]> (_balances s)) from + 1]>
         (<[from := _balances s from - 1]> (_balances s))) o = _balances s o).
    { intros o. destruct (N.eq_dec from o) as [<- | Hne]; fsimpl; [lia | reflexivity]. }
    constructor; simpl_state; try assumption.
    + intros x. rewrite <- Hown, ins_id. apply Hex.
    + eapply enumeration_ok_ext; [| | | exact Henum]; try reflexivity.
      intros x. rewrite <- Hown. apply ins_id.
    + intros o. rewrite Hbal'. apply Hbal.
  - assert (Hi : _ownedTokens s from !! N.to_nat (_ownedTokensIndex s t) = Some t).
    { rewrite <- Hown. apply Henum. congruence. }
    pose proof (lookup_lt_Some _ _ _ Hi) as Hlen.
    destruct (lookup_lt_is_Some_2 (_ownedTokens s from) (Nat.pred (length (_ownedTokens s from))))
      as [lastTok Hlast]; [lia |].
    destruct (beforeTokenTransfer_move s from to t lastTok Hft Hfrom Hto Hi Hlast)
      as (s1' & Hbefore' & Hframe & Hto' & Hfrom' & Hother & Hit & Hiother).
    rewrite Hbefore in Hbefore'. injection Hbefore' as <-.
    destruct Hframe as [Hn Hm Ho Hbl _ _ _ _].
    constructor; simpl_state; rewrite ?Hn, ?Hm, ?Ho, ?Hbl; try assumption.
    + intros x. destruct (N.eq_dec x t) as [-> | Hne]; fsimpl; [| apply Hex].
      split; [intros _; apply Hex; congruence | intros _; assumption].
    + eapply enumeration_move; eauto.
    + intros o. destruct (N.eq_dec o to) as [-> | Hne1]; fsimpl.
      * rewrite Hto', length_app, Hbal. simpl. lia.
      * destruct (N.eq_dec o from) as [-> | Hne2]; fsimpl.
        -- rewrite Hfrom', length_take, length_insert, Hbal. lia.
        -- rewrite Hother by assumption. apply Hbal.
Qed.

(** ** [_mint] *)

Lemma mint_inversion to t s s' :
  _mint to t s = (Ok tt, s') ->
  to <> 0 /\ _owners s t = 0
  /\ exists s1,
       _beforeTokenTransfer zero_address to t s = (Ok tt, s1)
       /\ _balances s1 to + 1 <= MAX_UINT256
       /\ s' = set_owners (<[t := to]> (_owners s1))
                 (set_balances (<[to := _balances s1 to + 1]> (_balances s1)) s1).
Proof.
  unfold _mint. mred.
  destruct (N.eqb_spec to 0) as [| Hto]; mred; [stuck |].
  destruct (N.eqb_spec (_owners s t) 0) as [Hex |]; mred; [| stuck].
  destruct (_beforeTokenTransfer 0 to t s) as [[[] | e] s1] eqn:Hbefore; [| stuck].
  unfold checked_add.
  destruct (N.leb_spec (_balances s1 to + 1) MAX_UINT256) as [Hb |]; mred; [| stuck].
  rewrite N.eqb_refl. intros Hret. injection Hret as <-.
  repeat (split; [assumption |]). exists s1. auto.
Qed.

Lemma mint_run to t s :
  to <> 0 -> _owners s t = 0 -> _balances s to + 1 <= MAX_UINT256 ->
  exists s', _mint to t s = (Ok tt, s').
Proof.
  intros Hto Hex Hb.
  destruct (beforeTokenTransfer_mint s to t Hto) as (s1 & Hbefore & Hframe & _).
  unfold _mint. mred.
  destruct (N.eqb_spec to 0); [congruence |]. mred.
  destruct (N.eqb_spec (_owners s t) 0); [| congruence]. mred.
  unfold zero_address in Hbefore. rewrite Hbefore. unfold checked_add.
  rewrite (sbe_balances _ _ Hframe).
  destruct (N.leb_spec (_balances s to + 1) MAX_UINT256); [| lia]. mred.
  rewrite N.eqb_refl. eauto.
Qed.

Lemma mint_never_collides to t s :
  _owners s t = 0 ->
  forall t' s', _mint to t s <> (Revert (TokenAlreadyMinted t'), s').
Proof.
  intros Hex t' s'. unfold _mint. mred.
  destruct (N.eqb_spec to 0); mred; [discriminate |].
  destruct (N.eqb_spec (_owners s t) 0); [| congruence]. mred.
  destruct (beforeTokenTransfer_mint s to t) as (s1 & Hbefore & _); [assumption |].
  unfold zero_address in Hbefore. rewrite Hbefore. unfold checked_add.
  destruct (_balances s1 to + 1 <=? MAX_UINT256); mred; [| discriminate].
  rewrite N.eqb_refl. discriminate.
Qed.

Lemma mint_ownership_inv to t s s' :
  _nextTokenId s = _totalMinted s + 1 ->
  _nextTokenId s <= MAX_UINT256 ->
  _nextTokenId s = t + 1 -> 1 <= t ->
  (forall x, _owners s x <> 0 <-> 1 <= x < t) ->
  enumeration_ok (_owners s) (_ownedTokens s) (_ownedTokensIndex s) ->
  (forall o, _balances s o = N.of_nat (length (_ownedTokens s o))) ->
  _mint to t s = (Ok tt, s') ->
  ownership_inv s'.
Proof.
  intros Hc Hb Ht Ht1 Hex Henum Hbal Hrun.
  apply mint_inversion in Hrun as (Hto & Hfree & s1 & Hbefore & Hb1 & ->).
  destruct (beforeTokenTransfer_mint s to t Hto)
    as (s1' & Hbefore' & Hframe & Hto' & Hother & Hit & Hiother).
  rewrite Hbefore in Hbefore'. injection Hbefore' as <-.
  destruct Hframe as [Hn Hm Ho Hbl _ _ _ _].
  constructor; simpl_state; rewrite ?Hn, ?Hm, ?Ho, ?Hbl; try assumption.
  - intros x. destruct (N.eq_dec x t) as [-> | Hne]; fsimpl.
    + split; [intros _; lia | intros _; assumption].
    + rewrite Hex. lia.
  - eapply enumeration_insert; eauto.
  - intros o. destruct (N.eq_dec o to) as [-> | Hne]; fsimpl.
    + rewrite Hto', length_app, Hbal. simpl. lia.
    + rewrite Hother by assumption. apply Hbal.
Qed.

(** ** [mintFighter] and [updateAttributes] as case analyses *)

Lemma mintFighter_unfold this sender a b c s :
  mintFighter this sender a b c s =
    if _nextTokenId s + 1 <=? MAX_UINT256 then
      if _totalMinted s + 1 <=? MAX_UINT256 then
        match _validateDistribution a b c with
        | Revert e =>
            (Revert e, set_totalMinted (_totalMinted s + 1)
                         (set_nextTokenId (_nextTokenId s + 1) s))
        | Ok _ =>
            match _mint sender (_nextTokenId s) (staged_mint this sender a b c s) with
            | (Ok _, s') => (Ok (_nextTokenId s), s')
            | (Revert e, s') => (Revert e, s')
            end
        end
      else (Revert (Panic PANIC_ARITHMETIC), set_nextTokenId (_nextTokenId s + 1) s)
    else (Revert (Panic PANIC_ARITHMETIC), s).
Proof.
  unfold mintFighter, checked_add. mred.
  destruct (_nextTokenId s + 1 <=? MAX_UINT256); mred; [| reflexivity].
  destruct (_totalMinted s + 1 <=? MAX_UINT256); mred; [| reflexivity].
  destruct (_validateDistribution a b c) as [[] | e] eqn:Hv.
  - rewrite (createAttributes_ok _ _ _ _ Hv). mred. fsimpl. reflexivity.
  - rewrite (createAttributes_revert _ _ _ _ _ Hv). reflexivity.
Qed.

Lemma updateAttributes_unfold this sender t a b c s :
  updateAttributes this sender t a b c s =
    if _owners s t =? 0 then (Revert (FighterDoesNotExist t), s)
    else if negb (_isApprovedOrOwner sender t (_owners s t) s) then (Revert NotAuthorized, s)
    else match _validateDistribution a b c with
         | Revert e => (Revert e, s)
         | Ok _ => (Ok tt, updated this t a b c s)
         end.
Proof.
  unfold updateAttributes. mred.
  destruct (_owners s t =? 0); mred; [reflexivity |].
  destruct (_isApprovedOrOwner sender t (_owners s t) s); mred; [| reflexivity].
  destruct (_validateDistribution a b c) as [[] | e] eqn:Hv.
  - rewrite (createAttributes_ok _ _ _ _ Hv). mred. fsimpl. reflexivity.
  - rewrite (createAttributes_revert _ _ _ _ _ Hv). reflexivity.
Qed.

Lemma allowViewer_unfold sender t v s :
  allowViewer sender t v s =
    if _owners s t =? 0 then (Revert (FighterDoesNotExist t), s)
    else if v =? 0 then (Revert InvalidAddress, s)
    else if negb (_isApprovedOrOwner sender t (_owners s t) s) then (Revert NotAuthorized, s)
    else (Ok tt, set_fhe (grant_all (_fighterAttributes s t) v (fhe s)) s).
Proof.
  unfold allowViewer. mred.
  destruct (_owners s t =? 0); mred; [reflexivity |].
  destruct (v =? 0); mred; [reflexivity |].
  destruct (_isApprovedOrOwner sender t (_owners s t) s); reflexivity.
Qed.

Lemma approve_unfold sender to t s :
  approve sender to t s =
    if _owners s t =? 0 then (Revert (FighterDoesNotExist t), s)
    else if negb (sender =? _owners s t) && negb (_operatorApprovals s (_owners s t) sender)
         then (Revert NotAuthorized, s)
         else (Ok tt, set_tokenApprovals (<[t := to]> (_tokenApprovals s)) s).
Proof.
  unfold approve. mred.
  destruct (_owners s t =? 0); mred; [reflexivity |].
  destruct (sender =? _owners s t), (_operatorApprovals s (_owners s t) sender); reflexivity.
Qed.

(** ** What the state-changing internals leave alone *)

Lemma mint_effects to t s s' :
  _mint to t s = (Ok tt, s') ->
  _nextTokenId s' = _nextTokenId s /\ _totalMinted s' = _totalMinted s
  /\ _owners s' = <[t := to]> (_owners s)
  /\ _balances s' = <[to := _balances s to + 1]> (_balances s)
  /\ _tokenApprovals s' = _tokenApprovals s
  /\ _operatorApprovals s' = _operatorApprovals s
  /\ _fighterAttributes s' = _fighterAttributes s
  /\ fhe s' = fhe s
  /\ _ownedTokens s' to = _ownedTokens s to ++ [t]
  /\ (forall o, o <> to -> _ownedTokens s' o = _ownedTokens s o).
Proof.
  intros Hrun.
  apply mint_inversion in Hrun as (Hto & Hfree & s1 & Hbefore & Hb1 & ->).
  destruct (beforeTokenTransfer_mint s to t Hto)
    as (s1' & Hbefore' & Hframe & Hto' & Hother & _).
  rewrite Hbefore in Hbefore'. injection Hbefore' as <-.
  destruct Hframe as [Hn Hm Ho Hbl Hta Hoa Hfa Hfhe].
  simpl_state. rewrite Hn, Hm, Ho, Hbl, Hta, Hoa, Hfa, Hfhe. tauto.
Qed.

Lemma transfer_effects sender from to t s s' :
  ownership_inv s ->
  _transfer sender from to t s = (Ok tt, s') ->
  _nextTokenId s' = _nextTokenId s /\ _totalMinted s' = _totalMinted s
  /\ _owners s' = <[t := to]> (_owners s)
  /\ _tokenApprovals s' = <[t := 0]> (_tokenApprovals s)
  /\ _operatorApprovals s' = _operatorApprovals s
  /\ _fighterAttributes s' = _fighterAttributes s
  /\ fhe s' = grant_all (_fighterAttributes s t) to (fhe s).
Proof.
  intros Hinv Hrun.
  apply transfer_inversion in Hrun
    as (Hto & Hown & Hfrom & _ & s1 & Hbefore & Hb1 & Hb2 & ->).
  assert (Hframe : same_but_enumeration s s1).
  { destruct (N.eq_dec from to) as [<- | Hft].
    - rewrite beforeTokenTransfer_self in Hbefore. injection Hbefore as <-. now constructor.
    - assert (Hi : _ownedTokens s from !! N.to_nat (_ownedTokensIndex s t) = Some t).
      { rewrite <- Hown. apply (inv_enum _ Hinv). congruence. }
      pose proof (lookup_lt_Some _ _ _ Hi) as Hlen.
      destruct (lookup_lt_is_Some_2 (_ownedTokens s from)
                  (Nat.pred (length (_ownedTokens s from)))) as [lastTok Hlast]; [lia |].
      destruct (beforeTokenTransfer_move s from to t lastTok Hft Hfrom Hto Hi Hlast)
        as (s1' & Hbefore' & Hframe & _).
      rewrite Hbefore in Hbefore'. now injection Hbefore' as <-. }
  destruct Hframe as [Hn Hm Ho Hbl Hta Hoa Hfa Hfhe].
  simpl_state. rewrite Hn, Hm, Ho, Hta, Hoa, Hfa, Hfhe. tauto.
Qed.

Lemma ownership_inv_frame s s' :
  _nextTokenId s' = _nextTokenId s -> _totalMinted s' = _totalMinted s ->
  _owners s' = _owners s -> _balances s' = _balances s ->
  _ownedTokens s' = _ownedTokens s -> _ownedTokensIndex s' = _ownedTokensIndex s ->
  ownership_inv s -> ownership_inv s'.
Proof.
  intros Hn Hm Ho Hb Ht Hi [? ? ? ? ?].
  constructor; rewrite ?Hn, ?Hm, ?Ho, ?Hb, ?Ht, ?Hi; assumption.
Qed.

(** ** Handles and the values behind them *)

Lemma handle_of_inj v w : handle_of v = handle_of w -> v = w.
Proof. unfold handle_of. lia. Qed.

Lemma handles_new_attributes a b c h :
  In h (handles (new_attributes a b c)) ->
  h = handle_of a \/ h = handle_of b \/ h = handle_of c.
Proof. unfold handles, new_attributes. simpl. intuition. Qed.

Lemma plaintext_grant_all a who f : plaintext (grant_all a who f) = plaintext f.
Proof. reflexivity. Qed.

(** The three encryptions record each value behind its own handle and leave
    the other handles as they were. *)
Lemma plaintext_encrypted a b c f h :
  (h = handle_of c /\ plaintext (encrypted a b c f) h = c)
  \/ (h = handle_of b /\ plaintext (encrypted a b c f) h = b)
  \/ (h = handle_of a /\ plaintext (encrypted a b c f) h = a)
  \/ (~ In h (handles (new_attributes a b c))
      /\ plaintext (encrypted a b c f) h = plaintext f h).
Proof.
  unfold encrypted, handles, new_attributes. simpl.
  destruct (N.eq_dec (handle_of c) h) as [<- | Hc]; [left; split; [reflexivity | apply ins_eq] |].
  rewrite (ins_ne _ _ _ _ Hc). right.
  destruct (N.eq_dec (handle_of b) h) as [<- | Hb]; [left; split; [reflexivity | apply ins_eq] |].
  rewrite (ins_ne _ _ _ _ Hb). right.
  destruct (N.eq_dec (handle_of a) h) as [<- | Ha]; [left; split; [reflexivity | apply ins_eq] |].
  rewrite (ins_ne _ _ _ _ Ha). right. split; [tauto | reflexivity].
Qed.

Lemma plaintext_encrypted_old a b c f h :
  handle_of (plaintext f h) = h -> plaintext (encrypted a b c f) h = plaintext f h.
Proof.
  intros Hh.
  destruct (plaintext_encrypted a b c f h)
    as [[Heq ->] | [[Heq ->] | [[Heq ->] | [_ ->]]]]; [.. | reflexivity];
    rewrite Heq in Hh at 2; now apply handle_of_inj in Hh.
Qed.

Lemma plaintext_encrypted_new a b c f :
  plaintext (encrypted a b c f) (agility (new_attributes a b c)) = a
  /\ plaintext (encrypted a b c f) (strength (new_attributes a b c)) = b
  /\ plaintext (encrypted a b c f) (stamina (new_attributes a b c)) = c.
Proof.
  unfold new_attributes. cbn [agility strength stamina]. repeat split.
  - destruct (plaintext_encrypted a b c f (handle_of a))
      as [[Heq ->] | [[Heq ->] | [[Heq ->] | [Hn _]]]];
      [now apply handle_of_inj in Heq .. | reflexivity |].
    exfalso. apply Hn. unfold handles, new_attributes. simpl. auto.
  - destruct (plaintext_encrypted a b c f (handle_of b))
      as [[Heq ->] | [[Heq ->] | [[Heq ->] | [Hn _]]]];
      [now apply handle_of_inj in Heq | reflexivity | now apply handle_of_inj in Heq |].
    exfalso. apply Hn. unfold handles, new_attributes. simpl. auto.
  - destruct (plaintext_encrypted a b c f (handle_of c))
      as [[Heq ->] | [[Heq ->] | [[Heq ->] | [Hn _]]]];
      [reflexivity | now apply handle_of_inj in Heq .. |].
    exfalso. apply Hn. unfold handles, new_attributes. simpl. auto.
Qed.

Lemma plaintext_encrypted_handle a b c f h :
  handle_of (plaintext f h) = h \/ In h (handles (new_attributes a b c)) ->
  handle_of (plaintext (encrypted a b c f) h) = h.
Proof.
  intros Hh.
  destruct (plaintext_encrypted a b c f h)
    as [[Heq ->] | [[Heq ->] | [[Heq ->] | [Hn ->]]]]; try (symmetry; exact Heq).
  tauto.
Qed.

Lemma acl_grant_all_true a who f h x :
  acl (grant_all a who f) h x = true ->
  acl f h x = true \/ (x = who /\ In h (handles a)).
Proof.
  rewrite acl_grant_all. unfold handles. simpl.
  destruct (acl f h x); [now left |]. simpl.
  destruct (N.eqb_spec x who); [| discriminate]. simpl.
  destruct (N.eqb_spec h (agility a)); [intros _; right; auto |].
  destruct (N.eqb_spec h (strength a)); [intros _; right; auto |].
  destruct (N.eqb_spec h (stamina a)); [intros _; right; auto | discriminate].
Qed.

Lemma acl_grant_all_granted a who f h :
  In h (handles a) -> acl (grant_all a who f) h who = true.
Proof.
  rewrite acl_grant_all, N.eqb_refl. unfold handles. simpl.
  intros [<- | [<- | [<- | []]]]; rewrite N.eqb_refl; simpl;
    rewrite ?orb_true_r; reflexivity.
Qed.

Lemma acl_grant_all_mono a who f h x :
  acl f h x = true -> acl (grant_all a who f) h x = true.
Proof. intros H. now rewrite acl_grant_all, H. Qed.

Lemma cipher_inv_grant s a who :
  cipher_inv s -> cipher_inv (set_fhe (grant_all a who (fhe s)) s).
Proof.
  intros [Hattr]. constructor; simpl_state.
  intros t' h Ht' Hin. rewrite plaintext_grant_all. eauto.
Qed.

Lemma cipher_inv_encrypt s t this who a b c owners' :
  cipher_inv s ->
  (forall x, x <> t -> owners' x <> 0 -> _owners s x <> 0) ->
  let A := new_attributes a b c in
  cipher_inv (set_owners owners'
             (set_fhe (grant_all A who (grant_all A this (encrypted a b c (fhe s))))
                (set_fighterAttributes (<[t := A]> (_fighterAttributes s)) s))).
Proof.
  intros [Hattr] Hown A. constructor; simpl_state.
  intros x h Hx Hin. rewrite !plaintext_grant_all. apply plaintext_encrypted_handle.
  destruct (N.eq_dec x t) as [-> | Hne].
  - rewrite ins_eq in Hin. now right.
  - rewrite ins_ne in Hin by congruence. left. eauto.
Qed.

Lemma cipher_inv_frame s s' :
  fhe s' = fhe s -> _fighterAttributes s' = _fighterAttributes s -> _owners s' = _owners s ->
  cipher_inv s -> cipher_inv s'.
Proof.
  intros Hf Ha Ho [?]. constructor; rewrite ?Hf, ?Ha, ?Ho; assumption.
Qed.

(** ** Every successful call preserves the invariants *)

Lemma mintFighter_inversion this sender a b c s id s' :
  mintFighter this sender a b c s = (Ok id, s') ->
  id = _nextTokenId s
  /\ _nextTokenId s + 1 <= MAX_UINT256 /\ _totalMinted s + 1 <= MAX_UINT256
  /\ _validateDistribution a b c = Ok tt
  /\ _mint sender (_nextTokenId s) (staged_mint this sender a b c s) = (Ok tt, s').
Proof.
  rewrite mintFighter_unfold.
  destruct (N.leb_spec (_nextTokenId s + 1) MAX_UINT256); [| stuck].
  destruct (N.leb_spec (_totalMinted s + 1) MAX_UINT256); [| stuck].
  destruct (_validateDistribution a b c) as [[] | e]; [| stuck].
  destruct (_mint sender (_nextTokenId s) (staged_mint this sender a b c s))
    as [[[] | e] s1]; [| stuck].
  intros Hret. injection Hret as <- <-. auto.
Qed.

Lemma mintFighter_inv this sender a b c s id s' :
  ownership_inv s -> cipher_inv s ->
  mintFighter this sender a b c s = (Ok id, s') ->
  ownership_inv s' /\ cipher_inv s' /\ id = _nextTokenId s /\ _nextTokenId s' = id + 1.
Proof.
  intros Hown Hacl Hrun.
  apply mintFighter_inversion in Hrun as (-> & Hn & Hm & Hv & Hmint).
  pose proof (mint_effects _ _ _ _ Hmint)
    as (Hn' & Hm' & Ho' & Hb' & _ & _ & Hfa' & Hfhe' & _).
  destruct Hown as [Hc Hb Hex Henum Hbal].
  refine (conj _ (conj _ (conj eq_refl _))).
  - eapply mint_ownership_inv; [| | | | | | | exact Hmint]; unfold staged_mint; simpl_state;
      try assumption; try lia.
  - eapply cipher_inv_frame;
      [| | | apply (cipher_inv_encrypt s (_nextTokenId s) this sender a b c
                      (<[_nextTokenId s := sender]> (_owners s)) Hacl)].
    + rewrite Hfhe'. reflexivity.
    + rewrite Hfa'. reflexivity.
    + rewrite Ho'. reflexivity.
    + intros x Hne. now rewrite ins_ne by congruence.
  - rewrite Hn'. reflexivity.
Qed.

Lemma updateAttributes_inv this sender t a b c s s' :
  ownership_inv s -> cipher_inv s ->
  updateAttributes this sender t a b c s = (Ok tt, s') ->
  ownership_inv s' /\ cipher_inv s' /\ _nextTokenId s' = _nextTokenId s.
Proof.
  intros Hown Hacl. rewrite updateAttributes_unfold.
  destruct (N.eqb_spec (_owners s t) 0); [stuck |].
  destruct (_isApprovedOrOwner sender t (_owners s t) s); simpl; [| stuck].
  destruct (_validateDistribution a b c) as [[] | e]; [| stuck].
  intros Hret. injection Hret as <-.
  refine (conj _ (conj _ eq_refl)).
  - eapply ownership_inv_frame; [.. | exact Hown]; reflexivity.
  - eapply cipher_inv_frame;
      [| | | apply (cipher_inv_encrypt s t this (_owners s t) a b c (_owners s) Hacl)];
      try reflexivity. auto.
Qed.

Lemma allowViewer_inv sender t v s s' :
  ownership_inv s -> cipher_inv s ->
  allowViewer sender t v s = (Ok tt, s') ->
  ownership_inv s' /\ cipher_inv s' /\ _nextTokenId s' = _nextTokenId s.
Proof.
  intros Hown Hacl. rewrite allowViewer_unfold.
  destruct (N.eqb_spec (_owners s t) 0); [stuck |].
  destruct (v =? 0); [stuck |].
  destruct (_isApprovedOrOwner sender t (_owners s t) s); simpl; [| stuck].
  intros Hret. injection Hret as <-.
  refine (conj _ (conj _ eq_refl)).
  - eapply ownership_inv_frame; [.. | exact Hown]; reflexivity.
  - apply cipher_inv_grant. exact Hacl.
Qed.

Lemma approve_inv sender to t s s' :
  ownership_inv s -> cipher_inv s ->
  approve sender to t s = (Ok tt, s') ->
  ownership_inv s' /\ cipher_inv s' /\ _nextTokenId s' = _nextTokenId s.
Proof.
  intros Hown Hacl. rewrite approve_unfold.
  destruct (N.eqb_spec (_owners s t) 0); [stuck |].
  destruct (negb (sender =? _owners s t) && negb (_operatorApprovals s (_owners s t) sender));
    [stuck |].
  intros Hret. injection Hret as <-.
  refine (conj _ (conj _ eq_refl)).
  - eapply ownership_inv_frame; [.. | exact Hown]; reflexivity.
  - eapply cipher_inv_frame; [.. | exact Hacl]; reflexivity.
Qed.

Lemma transfer_inv sender from to t s s' :
  ownership_inv s -> cipher_inv s ->
  _transfer sender from to t s = (Ok tt, s') ->
  ownership_inv s' /\ cipher_inv s' /\ _nextTokenId s' = _nextTokenId s.
Proof.
  intros Hown Hacl Hrun.
  pose proof (transfer_effects _ _ _ _ _ _ Hown Hrun)
    as (Hn & _ & Ho & _ & _ & Hfa & Hfhe).
  pose proof (transfer_inversion _ _ _ _ _ _ Hrun) as (Hto & Hfrom & Hfrom0 & _).
  refine (conj _ (conj _ Hn)).
  - eapply transfer_ownership_inv; eauto.
  - assert (Hex : _owners s t <> 0) by congruence.
    pose proof (cipher_inv_grant s (_fighterAttributes s t) to Hacl) as [Hattr'].
    cbn [fhe set_fhe _owners _fighterAttributes] in Hattr'.
    constructor; rewrite Hfhe, ?Hfa, ?Ho.
    intros x h Hx Hin. apply (Hattr' x h); [| exact Hin].
    destruct (N.eq_dec t x) as [<- | Hne]; [assumption |].
    now rewrite ins_ne in Hx by congruence.
Qed.

Lemma dispatch_inv this sender c s r s' :
  ownership_inv s -> cipher_inv s ->
  dispatch this sender c s = (Ok r, s') ->
  ownership_inv s' /\ cipher_inv s'
  /\ match r with
     | Some id => id = _nextTokenId s /\ _nextTokenId s' = id + 1
     | None => _nextTokenId s' = _nextTokenId s
     end.
Proof.
  intros Hown Hacl. destruct c; unfold dispatch; mred.
  - destruct (mintFighter this sender agilityPoints strengthPoints staminaPoints s)
      as [[id | e] s1] eqn:Hrun; [| stuck].
    intros Hret. injection Hret as <- <-.
    pose proof (mintFighter_inv _ _ _ _ _ _ _ _ Hown Hacl Hrun). tauto.
  - destruct (updateAttributes this sender tokenId agilityPoints strengthPoints staminaPoints s)
      as [[[] | e] s1] eqn:Hrun; [| stuck].
    intros Hret. injection Hret as <- <-. eapply updateAttributes_inv; eauto.
  - destruct (allowViewer sender tokenId viewer s) as [[[] | e] s1] eqn:Hrun; [| stuck].
    intros Hret. injection Hret as <- <-. eapply allowViewer_inv; eauto.
  - destruct (approve sender to tokenId s) as [[[] | e] s1] eqn:Hrun; [| stuck].
    intros Hret. injection Hret as <- <-. eapply approve_inv; eauto.
  - unfold setApprovalForAll. mred. intros Hret. injection Hret as <- <-.
    refine (conj _ (conj _ eq_refl)).
    + eapply ownership_inv_frame; [.. | exact Hown]; reflexivity.
    + eapply cipher_inv_frame; [.. | exact Hacl]; reflexivity.
  - unfold transferFrom.
    destruct (_transfer sender from to tokenId s) as [[[] | e] s1] eqn:Hrun; [| stuck].
    intros Hret. injection Hret as <- <-. eapply transfer_inv; eauto.
  - unfold safeTransferFrom. mred.
    destruct (_transfer sender from to tokenId s) as [[[] | e] s1] eqn:Hrun; [| stuck].
    destruct accepted; mred; [| stuck].
    intros Hret. injection Hret as <- <-. eapply transfer_inv; eauto.
Qed.

(** ** Reachable states satisfy the invariants *)

Lemma genesis_inv : ownership_inv genesis /\ cipher_inv genesis.
Proof.
  split; constructor; simpl; try reflexivity.
  - unfold MAX_UINT256. lia.
  - intros t. split; [congruence | lia].
  - split; [congruence | intros o i t Hl; discriminate Hl].
  - intros t h Ht. congruence.
Qed.

Lemma step_cases this s tx :
  (exists r, dispatch this (fst tx) (snd tx) s = (Ok r, step this s tx))
  \/ step this s tx = s.
Proof.
  unfold step, external.
  destruct (dispatch this (fst tx) (snd tx) s) as [[r | e] s1]; simpl; eauto.
Qed.

Lemma step_inv this s tx :
  ownership_inv s /\ cipher_inv s -> ownership_inv (step this s tx) /\ cipher_inv (step this s tx).
Proof.
  intros [Hown Hacl]. destruct (step_cases this s tx) as [[r Hrun] | ->]; [| auto].
  pose proof (dispatch_inv _ _ _ _ _ _ Hown Hacl Hrun). tauto.
Qed.

Lemma run_inv this txs s :
  ownership_inv s /\ cipher_inv s -> ownership_inv (run this txs s) /\ cipher_inv (run this txs s).
Proof.
  revert s. induction txs as [| tx txs IH]; intros s Hinv; [exact Hinv |].
  simpl. apply IH. now apply step_inv.
Qed.

Lemma reachable_inv this s : reachable this s -> ownership_inv s /\ cipher_inv s.
Proof. intros [txs <-]. apply run_inv, genesis_inv. Qed.

Lemma reachable_step this s tx : reachable this s -> reachable this (step this s tx).
Proof.
  intros [txs <-]. exists (txs ++ [tx]). unfold run. now rewrite fold_left_app.
Qed.

Lemma external_ok_step {A} this sender c (m : M A) s a s' :
  (forall r s1, m s = (Ok r, s1) -> exists r', dispatch this sender c s = (Ok r', s1)) ->
  external m s = (Ok a, s') -> step this s (sender, c) = s'.
Proof.
  intros Hd. unfold step, external. cbn [fst snd].
  destruct (m s) as [[r | e] s1]; [| stuck].
  intros Hret. injection Hret as <- <-.
  destruct (Hd _ _ eq_refl) as [r' ->]. reflexivity.
Qed.

(** ** Counting owned tokens *)

Lemma owned_iff s o x :
  ownership_inv s -> (x ∈ _ownedTokens s o <-> _owners s x = o /\ o <> 0).
Proof.
  intros Hinv. destruct (inv_enum _ Hinv) as [Hidx Harr]. split.
  - intros Hin. apply list_elem_of_lookup in Hin as [i Hi].
    destruct (Harr _ _ _ Hi) as (? & ? & _). auto.
  - intros [<- Hne]. eapply list_elem_of_lookup_2. now apply Hidx.
Qed.

Lemma owned_NoDup s o : ownership_inv s -> NoDup (_ownedTokens s o).
Proof.
  intros Hinv. destruct (inv_enum _ Hinv) as [_ Harr].
  apply NoDup_alt. intros i j x Hi Hj.
  destruct (Harr _ _ _ Hi) as (_ & _ & Hi').
  destruct (Harr _ _ _ Hj) as (_ & _ & Hj'). lia.
Qed.

Lemma minted_iff s t : t ∈ minted_tokens s <-> 1 <= t <= _totalMinted s.
Proof.
  unfold minted_tokens. rewrite list_elem_of_fmap. split.
  - intros (n & -> & Hn). apply elem_of_seq in Hn. lia.
  - intros Ht. exists (N.to_nat t). split; [lia |]. apply elem_of_seq. lia.
Qed.

Lemma minted_exists s t :
  ownership_inv s -> (t ∈ minted_tokens s <-> _owners s t <> 0).
Proof.
  intros Hinv. rewrite minted_iff, (inv_exists _ Hinv), (inv_counter _ Hinv). lia.
Qed.

Lemma minted_NoDup s : NoDup (minted_tokens s).
Proof. unfold minted_tokens. apply NoDup_fmap_2; [apply _ | apply NoDup_seq]. Qed.

Lemma minted_length s : length (minted_tokens s) = N.to_nat (_totalMinted s).
Proof. unfold minted_tokens. now rewrite length_fmap, length_seq. Qed.

Lemma owned_count_correct s o :
  ownership_inv s -> length (_ownedTokens s o) = owned_count s o.
Proof.
  intros Hinv. unfold owned_count. apply Permutation_length, NoDup_Permutation.
  - now apply owned_NoDup.
  - apply list.NoDup_filter, minted_NoDup.
  - intros x. rewrite list_elem_of_filter, owned_iff, minted_exists by assumption.
    split; [intros [<- ?]; auto | intros [<- ?]; auto].
Qed.

Lemma sum_zero (y : N) (os : list N) :
  y ∉ os -> sum_list_with (fun o => if decide (y = o) then 1%nat else 0%nat) os = 0%nat.
Proof.
  induction os as [| o os IH]; intros Hy; [reflexivity |]. simpl.
  apply not_elem_of_cons in Hy as [Hne Hy].
  destruct (decide (y = o)); [congruence |]. now apply IH.
Qed.

Lemma sum_indicator (y : N) (os : list N) :
  NoDup os -> y ∈ os ->
  sum_list_with (fun o => if decide (y = o) then 1%nat else 0%nat) os = 1%nat.
Proof.
  induction 1 as [| o os Hnotin Hnd IH]; intros Hy; [now apply elem_of_nil in Hy |].
  simpl. destruct (decide (y = o)) as [-> | Hne].
  - now rewrite sum_zero.
  - apply elem_of_cons in Hy as [? | Hy]; [congruence |]. now apply IH.
Qed.

Lemma sum_pointwise (g h : N -> nat) (os : list N) :
  sum_list_with (fun o => (g o + h o)%nat) os
  = (sum_list_with g os + sum_list_with h os)%nat.
Proof. induction os as [| o os IH]; simpl; [reflexivity | rewrite IH; lia]. Qed.

Lemma sum_owned_classes (f : N -> N) (toks os : list N) :
  NoDup os -> (forall t, t ∈ toks -> f t ∈ os) ->
  sum_list_with (fun o => length (filter (fun t => f t = o) toks)) os = length toks.
Proof.
  intros Hnd. induction toks as [| x toks IH]; intros Hcover.
  - clear. induction os as [| o os IHos]; [reflexivity | exact IHos].
  - transitivity
      (sum_list_with (fun o => ((if decide (f x = o) then 1 else 0)
                                + length (filter (fun t => f t = o) toks))%nat) os).
    + clear. induction os as [| o os IHos]; [reflexivity |]. simpl. rewrite IHos.
      f_equal. rewrite filter_cons. destruct (decide (f x = o)); reflexivity.
    + rewrite sum_pointwise, sum_indicator, IH.
      * reflexivity.
      * intros t Ht. apply Hcover. now right.
      * assumption.
      * apply Hcover. now left.
Qed.

Lemma owned_sum s (os : list N) :
  ownership_inv s -> NoDup os ->
  (forall t, _owners s t <> 0 -> _owners s t ∈ os) ->
  sum_list_with (fun o => length (_ownedTokens s o)) os = N.to_nat (_totalMinted s).
Proof.
  intros Hinv Hnd Hcover. rewrite <- minted_length.
  rewrite <- (sum_owned_classes (_owners s) (minted_tokens s) os Hnd).
  - clear Hnd Hcover. induction os as [| o os IH]; [reflexivity |].
    simpl. rewrite IH. f_equal. now apply owned_count_correct.
  - intros t Ht. apply Hcover. now apply minted_exists.
Qed.

(** * The claims *)

(** ** C1: attribute validation *)

(** C1. [mintFighter] and [updateAttributes] pass the validation exactly
    when each plaintext input is at most 10 and the three sum to 10; an input
    above 10 gives [AttributeOutOfRange], inputs in range with another sum
    give [AttributeTotalMismatch].  A call that succeeds has passed the
    validation, and a call that reaches the validation with a rejected triple
    reverts with the validation's error and leaves the storage as it was.
    In particular mint(5,3,3) reverts with [AttributeTotalMismatch] and
    mint(4,3,3) succeeds. *)
Theorem C1_attribute_validation :
  (forall a s st : uint32,
     (_validateDistribution a s st = Ok tt
      <-> a <= 10 /\ s <= 10 /\ st <= 10 /\ a + s + st = 10)
     /\ (10 < a \/ 10 < s \/ 10 < st ->
         _validateDistribution a s st = Revert AttributeOutOfRange)
     /\ (a <= 10 -> s <= 10 -> st <= 10 -> a + s + st <> 10 ->
         _validateDistribution a s st = Revert AttributeTotalMismatch)
     /\ (forall this sender σ id σ',
           external (mintFighter this sender a s st) σ = (Ok id, σ') ->
           _validateDistribution a s st = Ok tt)
     /\ (forall this sender t σ σ',
           external (updateAttributes this sender t a s st) σ = (Ok tt, σ') ->
           _validateDistribution a s st = Ok tt)
     /\ (forall this sender σ e,
           _validateDistribution a s st = Revert e ->
           _nextTokenId σ < MAX_UINT256 -> _totalMinted σ < MAX_UINT256 ->
           external (mintFighter this sender a s st) σ = (Revert e, σ))
     /\ (forall this sender t σ,
           _exists t σ = true ->
           _isApprovedOrOwner sender t (_owners σ t) σ = true ->
           match _validateDistribution a s st with
           | Ok _ => exists σ', external (updateAttributes this sender t a s st) σ = (Ok tt, σ')
           | Revert e => external (updateAttributes this sender t a s st) σ = (Revert e, σ)
           end))
  /\ external (mintFighter contract_address alice 5 3 3) genesis
     = (Revert AttributeTotalMismatch, genesis)
  /\ fst (external (mintFighter contract_address alice 4 3 3) genesis) = Ok 1.
Proof.
  split; [| split; reflexivity].
  intros a s st.
  split; [apply validate_ok |].
  split; [apply validate_out_of_range |].
  split; [apply validate_mismatch |].
  split; [| split; [| split]].
  - intros this sender σ id σ'. unfold external.
    destruct (mintFighter this sender a s st σ) as [[id' | e] σ1] eqn:Hrun; [| stuck].
    intros _. now apply mintFighter_inversion in Hrun.
  - intros this sender t σ σ'. unfold external. rewrite updateAttributes_unfold.
    destruct (_owners σ t =? 0); [stuck |].
    destruct (negb (_isApprovedOrOwner sender t (_owners σ t) σ)); [stuck |].
    destruct (_validateDistribution a s st) as [[] | e]; [reflexivity | stuck].
  - intros this sender σ e Hv Hn Hm. unfold external. rewrite mintFighter_unfold, Hv.
    destruct (N.leb_spec (_nextTokenId σ + 1) MAX_UINT256); [| lia].
    destruct (N.leb_spec (_totalMinted σ + 1) MAX_UINT256); [| lia].
    reflexivity.
  - intros this sender t σ Hex Hauth. unfold external. rewrite updateAttributes_unfold.
    unfold _exists, zero_address in Hex.
    destruct (_owners σ t =? 0); [discriminate |]. rewrite Hauth. simpl.
    destruct (_validateDistribution a s st) as [[] | e]; eauto.
Qed.

Lemma C1_attribute_validation_witness :
  _validateDistribution 11 0 0 = Revert AttributeOutOfRange
  /\ _validateDistribution 5 3 3 = Revert AttributeTotalMismatch
  /\ external (mintFighter contract_address alice 5 3 3) minted_state
     = (Revert AttributeTotalMismatch, minted_state).
Proof.
  split; [| split].
  - apply (proj1 C1_attribute_validation 11 0 0). left. lia.
  - apply (proj1 C1_attribute_validation 5 3 3); lia.
  - apply (proj1 C1_attribute_validation 5 3 3); reflexivity.
Defined.

(** ** C2: the enumeration and its reverse index *)

Lemma minted_state_reachable : reachable contract_address minted_state.
Proof. exists four_mints. unfold minted_state. reflexivity. Defined.

Lemma transferFrom_step this sender from to t s s' :
  external (transferFrom sender from to t) s = (Ok tt, s') ->
  _transfer sender from to t s = (Ok tt, s')
  /\ step this s (sender, TransferFrom from to t) = s'.
Proof.
  intros Hrun. split.
  - revert Hrun. unfold external, transferFrom.
    destruct (_transfer sender from to t s) as [[[] | e] s1]; [tauto | stuck].
  - eapply external_ok_step; [| exact Hrun].
    intros [] s1 Hrun'. exists None. unfold dispatch. mred. now rewrite Hrun'.
Qed.

Lemma exists_true t s : _exists t s = true <-> _owners s t <> 0.
Proof.
  unfold _exists, zero_address. destruct (N.eqb_spec (_owners s t) 0); simpl; split;
    congruence.
Qed.

Lemma synchronised_at s t :
  ownership_inv s -> _owners s t <> 0 ->
  _ownedTokens s (_owners s t) !! N.to_nat (_ownedTokensIndex s t) = Some t
  /\ count_occ N.eq_dec (_ownedTokens s (_owners s t)) t = 1%nat
  /\ forall o, o <> _owners s t -> ~ In t (_ownedTokens s o).
Proof.
  intros Hinv Hex.
  pose proof (proj1 (inv_enum _ Hinv) t Hex) as Hidx.
  split; [exact Hidx |]. split.
  - apply NoDup_count_occ'.
    + apply NoDup_ListNoDup. now apply owned_NoDup.
    + apply list_elem_of_In. eapply list_elem_of_lookup_2. exact Hidx.
  - intros o Hne Hin. apply list_elem_of_In in Hin.
    apply owned_iff in Hin as [Ho _]; [congruence | assumption].
Qed.

(** C2. In every reachable state the reverse index of an existing token is
    its position in its owner's array, the token occurs exactly once there
    and in no other owner's array.  In particular a successful transfer
    between distinct owners, whether or not the token is the last of the
    sender's array, leads to a reachable state in which the sender's array
    holds the former tokens but the transferred one, each at the position its
    reverse index records. *)
Theorem C2_enumeration_synchronised (this : address) (s : state) :
  reachable this s ->
  (forall t, _exists t s = true ->
     _ownedTokens s (_owners s t) !! N.to_nat (_ownedTokensIndex s t) = Some t
     /\ count_occ N.eq_dec (_ownedTokens s (_owners s t)) t = 1%nat
     /\ forall o, o <> _owners s t -> ~ In t (_ownedTokens s o))
  /\ (forall sender from to t s',
        from <> to ->
        external (transferFrom sender from to t) s = (Ok tt, s') ->
        reachable this s'
        /\ (forall x, In x (_ownedTokens s' from) <-> In x (_ownedTokens s from) /\ x <> t)
        /\ (forall x, In x (_ownedTokens s' from) ->
              _ownedTokens s' from !! N.to_nat (_ownedTokensIndex s' x) = Some x)).
Proof.
  intros Hreach. pose proof (reachable_inv _ _ Hreach) as [Hown Hacl]. split.
  - intros t Hex. apply synchronised_at; [assumption | now apply exists_true].
  - intros sender from to t s' Hft Hrun.
    apply (transferFrom_step this) in Hrun as [Hrun Hstep].
    assert (Hreach' : reachable this s') by (rewrite <- Hstep; now apply reachable_step).
    pose proof (reachable_inv _ _ Hreach') as [Hown' _].
    pose proof (transfer_effects _ _ _ _ _ _ Hown Hrun) as (_ & _ & Ho' & _).
    pose proof (transfer_inversion _ _ _ _ _ _ Hrun) as (_ & Hfrom & Hfrom0 & _).
    split; [assumption |]. split.
    + intros x. rewrite <- !list_elem_of_In, !owned_iff by assumption. rewrite Ho'.
      destruct (N.eq_dec t x) as [<- | Hne]; fsimpl; intuition congruence.
    + intros x Hin. apply list_elem_of_In in Hin.
      apply owned_iff in Hin as [Hx Hne]; [| assumption].
      rewrite <- Hx. apply (inv_enum _ Hown'). congruence.
Qed.

(** In [minted_state] Alice's array is [1; 2; 3]: the transfer of token 1
    removes a token that is not the last one. *)
Lemma C2_enumeration_synchronised_witness :
  reachable contract_address minted_state
  /\ _exists 2 minted_state = true
  /\ _ownedTokens minted_state (_owners minted_state 2)
       !! N.to_nat (_ownedTokensIndex minted_state 2) = Some 2
  /\ (forall x, In x (_ownedTokens moved_state alice) ->
        _ownedTokens moved_state alice !! N.to_nat (_ownedTokensIndex moved_state x) = Some x).
Proof.
  split; [exact minted_state_reachable |]. split; [vm_compute; reflexivity |]. split.
  - apply (proj1 (C2_enumeration_synchronised contract_address minted_state
                    minted_state_reachable) 2). vm_compute. reflexivity.
  - apply (proj2 (C2_enumeration_synchronised contract_address minted_state
                    minted_state_reachable) alice alice bob 1 moved_state).
    + unfold alice, bob. lia.
    + vm_compute. reflexivity.
Defined.

(** ** C3: what a transfer does *)

Lemma safeTransferFrom_step this sender from to t accepted s s' :
  external (safeTransferFrom sender from to t accepted) s = (Ok tt, s') ->
  _transfer sender from to t s = (Ok tt, s')
  /\ step this s (sender, SafeTransferFrom from to t accepted) = s'.
Proof.
  intros Hrun. split.
  - revert Hrun. unfold external, safeTransferFrom. mred.
    destruct (_transfer sender from to t s) as [[[] | e] s1]; [| stuck].
    destruct accepted; mred; [| stuck]. intros Hret. now injection Hret as <-.
  - eapply external_ok_step; [| exact Hrun].
    intros [] s1 Hrun'. exists None. unfold dispatch. mred. now rewrite Hrun'.
Qed.

Lemma transfer_post this sender A B t s s' :
  reachable this s ->
  step this s (sender, TransferFrom A B t) = s' \/
    (exists accepted, step this s (sender, SafeTransferFrom A B t accepted) = s') ->
  _transfer sender A B t s = (Ok tt, s') ->
  (forall h, In h (handles (_fighterAttributes s' t)) -> canRead s' h B = true)
  /\ (A <> B -> ~ In t (_ownedTokens s' A))
  /\ count_occ N.eq_dec (_ownedTokens s' B) t = 1%nat
  /\ ownerOf t s' = (Ok B, s')
  /\ getApproved t s' = (Ok 0, s').
Proof.
  intros Hreach Hstep Hrun.
  pose proof (reachable_inv _ _ Hreach) as [Hown Hacl].
  assert (Hreach' : reachable this s').
  { destruct Hstep as [<- | [accepted <-]]; now apply reachable_step. }
  pose proof (reachable_inv _ _ Hreach') as [Hown' _].
  pose proof (transfer_effects _ _ _ _ _ _ Hown Hrun)
    as (_ & _ & Ho' & Hta' & _ & Hfa' & Hfhe').
  pose proof (transfer_inversion _ _ _ _ _ _ Hrun) as (HB & _).
  assert (HownB : _owners s' t = B) by (rewrite Ho'; apply ins_eq).
  assert (Hex : _owners s' t <> 0) by congruence.
  destruct (synchronised_at s' t Hown' Hex) as (_ & Hcount & Hother).
  rewrite HownB in *.
  split; [| split; [| split; [| split]]].
  - intros h Hin. unfold canRead. rewrite Hfhe'. rewrite Hfa' in Hin.
    now apply acl_grant_all_granted.
  - intros Hne. now apply Hother.
  - exact Hcount.
  - unfold ownerOf. mred. rewrite HownB.
    destruct (N.eqb_spec B 0); [congruence |]. mred. now rewrite HownB.
  - unfold getApproved. mred. rewrite HownB.
    destruct (N.eqb_spec B 0); [congruence |]. mred. now rewrite Hta', ins_eq.
Qed.

(** C3, as stated, fails for a transfer of a token to its own owner: the
    call succeeds and the owner's list still holds the token. *)
Lemma C3_self_transfer_keeps_token :
  ~ (forall this s sender A B t s',
       reachable this s ->
       external (transferFrom sender A B t) s = (Ok tt, s') ->
       ~ In t (_ownedTokens s' A)).
Proof.
  intros H.
  apply (H contract_address minted_state alice alice alice 2 self_moved_state
           minted_state_reachable).
  - vm_compute. reflexivity.
  - vm_compute. auto.
Qed.

(** C3 (amended). After a successful transfer of [t] from [A] to [B], by
    [transferFrom] or [safeTransferFrom], from a reachable state: [B] may read
    the three current handles of [t], whatever was granted before; the list
    of [B] holds [t] exactly once; [ownerOf t] is [B]; the approval of [t] is
    cleared; and, when [A] and [B] differ, the list of [A] no longer holds
    [t]. *)
Theorem C3_transfer_effects (this : address) (s : state) (sender A B : address)
    (t : uint256) (s' : state) :
  reachable this s ->
  external (transferFrom sender A B t) s = (Ok tt, s')
  \/ (exists accepted, external (safeTransferFrom sender A B t accepted) s = (Ok tt, s')) ->
  (forall h, In h (handles (_fighterAttributes s' t)) -> canRead s' h B = true)
  /\ (A <> B -> ~ In t (_ownedTokens s' A))
  /\ count_occ N.eq_dec (_ownedTokens s' B) t = 1%nat
  /\ ownerOf t s' = (Ok B, s')
  /\ getApproved t s' = (Ok 0, s').
Proof.
  intros Hreach [Hrun | [accepted Hrun]].
  - apply (transferFrom_step this) in Hrun as [Hrun Hstep].
    eapply transfer_post; eauto.
  - apply (safeTransferFrom_step this) in Hrun as [Hrun Hstep].
    eapply transfer_post; eauto.
Qed.

Lemma C3_transfer_effects_witness :
  reachable contract_address minted_state
  /\ external (transferFrom alice alice bob 1) minted_state = (Ok tt, moved_state)
  /\ (forall h, In h (handles (_fighterAttributes moved_state 1)) ->
        canRead moved_state h bob = true)
  /\ ~ In 1 (_ownedTokens moved_state alice)
  /\ count_occ N.eq_dec (_ownedTokens moved_state bob) 1 = 1%nat
  /\ ownerOf 1 moved_state = (Ok bob, moved_state)
  /\ getApproved 1 moved_state = (Ok 0, moved_state).
Proof.
  assert (Hrun : external (transferFrom alice alice bob 1) minted_state = (Ok tt, moved_state))
    by (vm_compute; reflexivity).
  destruct (C3_transfer_effects contract_address minted_state alice alice bob 1 moved_state
              minted_state_reachable (or_introl Hrun)) as (H1 & H2 & H3 & H4 & H5).
  repeat (split; [assumption || exact minted_state_reachable |]).
  split; [apply H2; unfold alice, bob; lia |]. auto.
Defined.

(** ** C4: grants after an update *)

Lemma delegated_state_reachable : reachable contract_address delegated_state.
Proof.
  exists (four_mints ++ [(alice, Approve carol 2); (alice, AllowViewer 2 bob)]).
  unfold delegated_state. reflexivity.
Defined.

Lemma updateAttributes_inversion this sender t a b c s s' :
  updateAttributes this sender t a b c s = (Ok tt, s') ->
  _owners s t <> 0 /\ _isApprovedOrOwner sender t (_owners s t) s = true
  /\ _validateDistribution a b c = Ok tt /\ s' = updated this t a b c s.
Proof.
  rewrite updateAttributes_unfold.
  destruct (N.eqb_spec (_owners s t) 0); [stuck |].
  destruct (_isApprovedOrOwner sender t (_owners s t) s); simpl; [| stuck].
  destruct (_validateDistribution a b c) as [[] | e]; [| stuck].
  intros Hret. injection Hret as <-. auto.
Qed.

Lemma external_ok {A} (m : M A) s a s' :
  external m s = (Ok a, s') <-> m s = (Ok a, s').
Proof.
  unfold external. destruct (m s) as [[r | e] s1]; [tauto |].
  split; intros Hret; discriminate Hret.
Qed.

Lemma handles_existsb a h :
  existsb (N.eqb h) (handles a) = true <-> In h (handles a).
Proof.
  rewrite existsb_exists. split.
  - intros (x & Hin & Heq). apply N.eqb_eq in Heq. now subst x.
  - intros Hin. exists h. split; [assumption | apply N.eqb_refl].
Qed.

(** Two rounds of grants on the same record. *)
Lemma acl_grant_all_twice a who1 who2 f h x :
  acl (grant_all a who1 (grant_all a who2 f)) h x
  = acl f h x || (((x =? who1) || (x =? who2)) && existsb (N.eqb h) (handles a)).
Proof.
  rewrite !acl_grant_all. unfold handles. simpl.
  destruct (acl f h x), (x =? who1), (x =? who2), (h =? agility a), (h =? strength a),
    (h =? stamina a); reflexivity.
Qed.








(** ** C5: a failed mint *)

Lemma genesis_reachable this : reachable this genesis.
Proof. exists []. reflexivity. Defined.

Lemma balance_bound s o : ownership_inv s -> _balances s o + 1 <= MAX_UINT256.
Proof.
  intros Hinv. rewrite (inv_balance _ Hinv), (owned_count_correct _ _ Hinv).
  unfold owned_count.
  pose proof (length_filter (fun t => _owners s t = o) (minted_tokens s)) as Hle.
  rewrite minted_length in Hle.
  pose proof (inv_counter _ Hinv). pose proof (inv_bound _ Hinv). lia.
Qed.

Lemma next_id_free s : ownership_inv s -> _owners s (_nextTokenId s) = 0.
Proof.
  intros Hinv. destruct (N.eq_dec (_owners s (_nextTokenId s)) 0) as [| Hne]; [assumption |].
  apply (inv_exists _ Hinv) in Hne. lia.
Qed.

(** The counters are advanced before the validation runs: it is the revert,
    not the order of the statements, that keeps a rejected mint from showing. *)
Remark mintFighter_writes_before_validating :
  mintFighter contract_address alice 5 3 3 genesis
  = (Revert AttributeTotalMismatch, set_totalMinted 1 (set_nextTokenId 2 genesis)).
Proof. reflexivity. Qed.

(** As stated, C5 fails for the null caller: its mint passes the validation
    and reverts with [InvalidAddress] in [_mint]. *)
Lemma C5_null_caller_mint_reverts :
  ~ (forall this s sender a b c e s',
       reachable this s ->
       external (mintFighter this sender a b c) s = (Revert e, s') ->
       e = AttributeOutOfRange \/ e = AttributeTotalMismatch).
Proof.
  intros H.
  destruct (H contract_address genesis 0 4 3 3 InvalidAddress genesis
              (genesis_reachable contract_address)) as [He | He].
  - vm_compute. reflexivity.
  - discriminate He.
  - discriminate He.
Qed.

(** C5 (amended). A [mintFighter] call that reverts, for whatever reason,
    leaves the whole storage and the grant store exactly as they were.  From
    a reachable state whose id counter is below the largest [uint256], a
    caller other than the null address fails only through the validation,
    with [AttributeOutOfRange] or [AttributeTotalMismatch], and succeeds with
    the next id otherwise; the null address fails with [InvalidAddress] on a
    valid triple. *)
Theorem C5_failed_mint_has_no_effect (this : address) (s : state) (sender : address)
    (a b c : uint32) :
  (forall e s', external (mintFighter this sender a b c) s = (Revert e, s') -> s' = s)
  /\ (reachable this s -> _nextTokenId s < MAX_UINT256 -> sender <> 0 ->
      match _validateDistribution a b c with
      | Ok _ =>
          exists s', external (mintFighter this sender a b c) s = (Ok (_nextTokenId s), s')
      | Revert e =>
          external (mintFighter this sender a b c) s = (Revert e, s)
          /\ (e = AttributeOutOfRange \/ e = AttributeTotalMismatch)
      end)
  /\ (reachable this s -> _nextTokenId s < MAX_UINT256 -> sender = 0 ->
      _validateDistribution a b c = Ok tt ->
      external (mintFighter this sender a b c) s = (Revert InvalidAddress, s)).
Proof.
  split; [| split].
  - intros e s'. unfold external.
    destruct (mintFighter this sender a b c s) as [[id | e'] s1]; [stuck |].
    intros Hret. now injection Hret as _ <-.
  - intros Hreach Hn Hsender. pose proof (reachable_inv _ _ Hreach) as [Hown _].
    pose proof (inv_counter _ Hown) as Hc.
    unfold external. rewrite mintFighter_unfold.
    destruct (N.leb_spec (_nextTokenId s + 1) MAX_UINT256); [| lia].
    destruct (N.leb_spec (_totalMinted s + 1) MAX_UINT256); [| lia].
    pose proof (validate_cases a b c) as [Hv | [Hv | Hv]]; rewrite Hv; auto.
    destruct (mint_run sender (_nextTokenId s) (staged_mint this sender a b c s))
      as [s' Hmint].
    + assumption.
    + unfold staged_mint. simpl_state. now apply next_id_free.
    + unfold staged_mint. simpl_state. now apply balance_bound.
    + rewrite Hmint. eauto.
  - intros Hreach Hn -> Hv. pose proof (reachable_inv _ _ Hreach) as [Hown _].
    pose proof (inv_counter _ Hown) as Hc.
    unfold external. rewrite mintFighter_unfold, Hv.
    destruct (N.leb_spec (_nextTokenId s + 1) MAX_UINT256); [| lia].
    destruct (N.leb_spec (_totalMinted s + 1) MAX_UINT256); [| lia].
    reflexivity.
Qed.

Lemma C5_failed_mint_has_no_effect_witness :
  reachable contract_address minted_state
  /\ _nextTokenId minted_state < MAX_UINT256
  /\ alice <> 0
  /\ external (mintFighter contract_address alice 5 3 3) minted_state
     = (Revert AttributeTotalMismatch, minted_state)
  /\ (exists s', external (mintFighter contract_address alice 4 3 3) minted_state
                 = (Ok (_nextTokenId minted_state), s')).
Proof.
  assert (Hn : _nextTokenId minted_state < MAX_UINT256) by (vm_compute; reflexivity).
  assert (Ha : alice <> 0) by (unfold alice; lia).
  split; [exact minted_state_reachable |]. split; [exact Hn |]. split; [exact Ha |]. split.
  - exact (proj1 (proj1 (proj2 (C5_failed_mint_has_no_effect contract_address minted_state
                                  alice 5 3 3)) minted_state_reachable Hn Ha)).
  - exact (proj1 (proj2 (C5_failed_mint_has_no_effect contract_address minted_state
                           alice 4 3 3)) minted_state_reachable Hn Ha).
Defined.

(** ** C6: conservation *)

(** C6. In every reachable state the tokens that exist are exactly the
    minted ids; for every owner the list [fightersOf] returns is as long as
    the number of existing tokens that owner holds; and summing these
    lengths over the owners, each counted once, gives [totalSupply]. *)
Theorem C6_conservation (this : address) (s : state) :
  reachable this s ->
  (forall t, _exists t s = true <-> In t (minted_tokens s))
  /\ (forall owner,
        fightersOf owner s = (Ok (_ownedTokens s owner), s)
        /\ length (_ownedTokens s owner) = owned_count s owner)
  /\ (totalSupply s = (Ok (_totalMinted s), s)
      /\ N.of_nat (sum_list_with (fun o => length (_ownedTokens s o)) (owner_set s))
         = _totalMinted s)
  /\ (forall os : list address,
        NoDup os -> (forall t, _exists t s = true -> In (_owners s t) os) ->
        N.of_nat (sum_list_with (fun o => length (_ownedTokens s o)) os) = _totalMinted s).
Proof.
  intros Hreach. pose proof (reachable_inv _ _ Hreach) as [Hown _].
  assert (Hsum : forall os : list N,
    NoDup os -> (forall t, _exists t s = true -> In (_owners s t) os) ->
    N.of_nat (sum_list_with (fun o => length (_ownedTokens s o)) os) = _totalMinted s).
  { intros os Hnd Hcover. rewrite (owned_sum s os Hown Hnd); [lia |].
    intros t Ht. apply list_elem_of_In, Hcover. now apply exists_true. }
  split; [| split; [| split]].
  - intros t. rewrite exists_true, <- list_elem_of_In. symmetry. now apply minted_exists.
  - intros owner. split; [reflexivity |]. now apply owned_count_correct.
  - split; [reflexivity |]. apply Hsum.
    + apply NoDup_remove_dups.
    + intros t Ht. apply list_elem_of_In, elem_of_remove_dups, list_elem_of_fmap.
      exists t. split; [reflexivity |]. apply minted_exists; [assumption |].
      now apply exists_true.
  - exact Hsum.
Qed.

Lemma C6_conservation_witness :
  reachable contract_address moved_state
  /\ length (_ownedTokens moved_state alice) = owned_count moved_state alice
  /\ N.of_nat (sum_list_with (fun o => length (_ownedTokens moved_state o))
                 (owner_set moved_state)) = _totalMinted moved_state.
Proof.
  assert (Hreach : reachable contract_address moved_state).
  { exists (four_mints ++ [(alice, TransferFrom alice bob 1)]).
    unfold moved_state. reflexivity. }
  destruct (C6_conservation contract_address moved_state Hreach)
    as (_ & Hlen & (_ & Hsum) & _).
  split; [exact Hreach |]. split; [exact (proj2 (Hlen alice)) | exact Hsum].
Defined.

(** ** C10: the balance counter *)

(** C10. In every reachable state the stored balance of every address is
    the length of the array [fightersOf] returns for it, and for every
    address but the null one [balanceOf] returns that length. *)
Theorem C10_balance_is_list_length (this : address) (s : state) (owner : address) :
  reachable this s ->
  _balances s owner = N.of_nat (length (_ownedTokens s owner))
  /\ fightersOf owner s = (Ok (_ownedTokens s owner), s)
  /\ (owner <> 0 -> balanceOf owner s = (Ok (N.of_nat (length (_ownedTokens s owner))), s)).
Proof.
  intros Hreach. pose proof (reachable_inv _ _ Hreach) as [Hown _].
  pose proof (inv_balance _ Hown owner) as Hbal.
  split; [exact Hbal |]. split; [reflexivity |].
  intros Hne. unfold balanceOf. mred.
  destruct (N.eqb_spec owner 0); [congruence |]. mred. now rewrite Hbal.
Qed.

Lemma C10_balance_is_list_length_witness :
  reachable contract_address minted_state
  /\ _balances minted_state alice = N.of_nat (length (_ownedTokens minted_state alice))
  /\ balanceOf alice minted_state
     = (Ok (N.of_nat (length (_ownedTokens minted_state alice))), minted_state).
Proof.
  destruct (C10_balance_is_list_length contract_address minted_state alice
              minted_state_reachable) as (H1 & _ & H2).
  split; [exact minted_state_reachable |]. split; [exact H1 |].
  apply H2. unfold alice. lia.
Defined.

(** ** C8: token ids *)

Lemma minted_ids_from this txs s :
  ownership_inv s -> cipher_inv s ->
  minted_ids this txs s
  = N.of_nat <$> seq (N.to_nat (_nextTokenId s)) (length (minted_ids this txs s)).
Proof.
  revert s. induction txs as [| tx txs IH]; intros s Hown Hacl; [reflexivity |].
  cbn [minted_ids]. unfold external.
  destruct (dispatch this (fst tx) (snd tx) s) as [[[id |] | e] s1] eqn:Hrun.
  - destruct (dispatch_inv _ _ _ _ _ _ Hown Hacl Hrun) as (Hown1 & Hacl1 & -> & Hnext).
    cbn [length seq fmap list_fmap]. rewrite N2Nat.id. f_equal.
    rewrite (IH s1 Hown1 Hacl1) at 1. rewrite Hnext.
    replace (N.to_nat (_nextTokenId s + 1)) with (S (N.to_nat (_nextTokenId s))) by lia.
    reflexivity.
  - destruct (dispatch_inv _ _ _ _ _ _ Hown Hacl Hrun) as (Hown1 & Hacl1 & Hnext).
    rewrite <- Hnext. now apply IH.
  - now apply IH.
Qed.

Lemma step_next_id this s tx :
  ownership_inv s -> cipher_inv s -> _nextTokenId s <= _nextTokenId (step this s tx).
Proof.
  intros Hown Hacl. destruct (step_cases this s tx) as [[r Hrun] | ->]; [| lia].
  destruct (dispatch_inv _ _ _ _ _ _ Hown Hacl Hrun) as (_ & _ & Hnext).
  destruct r as [id |]; [destruct Hnext as [-> ->] |]; lia.
Qed.

(** C8. The ids returned by the successful mints of any run from the
    initial state are 1, 2, 3, ... in this order; no call ever lowers the id
    counter; in a reachable state the id the counter holds belongs to no
    token, and [mintFighter] never reverts with [TokenAlreadyMinted]. *)
Theorem C8_token_ids_increase (this : address) :
  (forall txs,
     minted_ids this txs genesis
     = N.of_nat <$> seq 1 (length (minted_ids this txs genesis)))
  /\ (forall s, reachable this s ->
        (forall tx, _nextTokenId s <= _nextTokenId (step this s tx))
        /\ _exists (_nextTokenId s) s = false
        /\ (forall sender a b c id s',
              external (mintFighter this sender a b c) s = (Ok id, s') ->
              id = _nextTokenId s /\ _nextTokenId s' = id + 1 /\ _exists id s = false)
        /\ (forall sender a b c t s',
              mintFighter this sender a b c s <> (Revert (TokenAlreadyMinted t), s'))).
Proof.
  split.
  - intros txs. destruct (genesis_inv) as [Hown Hacl].
    apply (minted_ids_from this txs genesis Hown Hacl).
  - intros s Hreach. pose proof (reachable_inv _ _ Hreach) as [Hown Hacl].
    pose proof (next_id_free s Hown) as Hfree.
    assert (Hnone : _exists (_nextTokenId s) s = false).
    { unfold _exists, zero_address. now rewrite Hfree. }
    split; [| split; [| split]].
    + intros tx. now apply step_next_id.
    + exact Hnone.
    + intros sender a b c id s' Hrun. apply -> (@external_ok N) in Hrun.
      destruct (mintFighter_inv _ _ _ _ _ _ _ _ Hown Hacl Hrun) as (_ & _ & -> & Hnext).
      auto.
    + intros sender a b c t s'. rewrite mintFighter_unfold.
      destruct (_nextTokenId s + 1 <=? MAX_UINT256); [| stuck].
      destruct (_totalMinted s + 1 <=? MAX_UINT256); [| stuck].
      destruct (validate_cases a b c) as [Hv | [Hv | Hv]]; rewrite Hv; [| stuck ..].
      destruct (_mint sender (_nextTokenId s) (staged_mint this sender a b c s))
        as [[[] | e] s1] eqn:Hmint; [stuck |].
      intros Hret. injection Hret as -> ->.
      revert Hmint. apply mint_never_collides.
      unfold staged_mint. simpl_state. exact Hfree.
Qed.

Lemma C8_token_ids_increase_witness :
  reachable contract_address minted_state
  /\ _exists (_nextTokenId minted_state) minted_state = false
  /\ minted_ids contract_address four_mints genesis
     = N.of_nat <$> seq 1 (length (minted_ids contract_address four_mints genesis)).
Proof.
  split; [exact minted_state_reachable |]. split.
  - exact (proj1 (proj2 (proj2 (C8_token_ids_increase contract_address) minted_state
                           minted_state_reachable))).
  - exact (proj1 (C8_token_ids_increase contract_address) four_mints).
Defined.

(** ** C7: [allowViewer] *)

(** C7. [allowViewer] reverts with [FighterDoesNotExist] when the token
    does not exist; for an existing token it reverts with [InvalidAddress]
    when the viewer is the null address; for an existing token and a viewer
    other than null it reverts with [NotAuthorized] when the caller is not
    the owner, not the approved address and not an operator of the owner.
    Otherwise it succeeds.  On success every field of the storage but the
    grant store is unchanged, no value is encrypted, and the grants are the
    former ones together with the viewer on the three current handles of the
    token. *)
Theorem C7_allowViewer (sender : address) (t : uint256) (viewer : address) (s : state) :
  (_exists t s = false ->
   external (allowViewer sender t viewer) s = (Revert (FighterDoesNotExist t), s))
  /\ (_exists t s = true -> viewer = 0 ->
      external (allowViewer sender t viewer) s = (Revert InvalidAddress, s))
  /\ (_exists t s = true -> viewer <> 0 ->
      sender <> _owners s t -> _tokenApprovals s t <> sender ->
      _operatorApprovals s (_owners s t) sender = false ->
      external (allowViewer sender t viewer) s = (Revert NotAuthorized, s))
  /\ (_exists t s = true -> viewer <> 0 ->
      sender = _owners s t \/ _tokenApprovals s t = sender
      \/ _operatorApprovals s (_owners s t) sender = true ->
      exists s', external (allowViewer sender t viewer) s = (Ok tt, s'))
  /\ (forall s',
        external (allowViewer sender t viewer) s = (Ok tt, s') ->
        same_but_fhe s s'
        /\ next_handle (fhe s') = next_handle (fhe s)
        /\ plaintext (fhe s') = plaintext (fhe s)
        /\ (forall h x,
              canRead s' h x
              = canRead s h x
                || ((x =? viewer) && existsb (N.eqb h) (handles (_fighterAttributes s t))))).
Proof.
  unfold external. rewrite allowViewer_unfold. unfold _exists, _isApprovedOrOwner, zero_address.
  split; [| split; [| split; [| split]]].
  - destruct (_owners s t =? 0); [reflexivity | discriminate].
  - intros Hex ->. destruct (_owners s t =? 0); [discriminate | reflexivity].
  - intros Hex Hv Hs1 Hs2 Hs3.
    destruct (_owners s t =? 0); [discriminate |].
    destruct (N.eqb_spec viewer 0); [congruence |].
    destruct (N.eqb_spec sender (_owners s t)); [congruence |].
    destruct (N.eqb_spec (_tokenApprovals s t) sender); [congruence |].
    rewrite Hs3. reflexivity.
  - intros Hex Hv Hauth.
    destruct (_owners s t =? 0); [discriminate |].
    destruct (N.eqb_spec viewer 0); [congruence |].
    destruct (N.eqb_spec sender (_owners s t)); simpl; [eauto |].
    destruct (N.eqb_spec (_tokenApprovals s t) sender); simpl; [eauto |].
    destruct Hauth as [? | [? | ->]]; [congruence | congruence | eauto].
  - intros s'.
    destruct (_owners s t =? 0); [stuck |].
    destruct (viewer =? 0); [stuck |].
    destruct (negb _); [stuck |].
    intros Hret. injection Hret as <-.
    split; [now constructor |]. split; [reflexivity |]. split; [reflexivity |].
    intros h x. unfold canRead, handles. simpl_state. rewrite acl_grant_all. simpl.
    now rewrite orb_false_r, !orb_assoc.
Qed.

Lemma C7_allowViewer_witness :
  external (allowViewer alice 9 bob) minted_state = (Revert (FighterDoesNotExist 9), minted_state)
  /\ external (allowViewer alice 2 0) minted_state = (Revert InvalidAddress, minted_state)
  /\ external (allowViewer carol 2 bob) minted_state = (Revert NotAuthorized, minted_state)
  /\ (exists s', external (allowViewer alice 2 bob) minted_state = (Ok tt, s')).
Proof.
  split; [| split; [| split]].
  - apply (proj1 (C7_allowViewer alice 9 bob minted_state)). vm_compute. reflexivity.
  - apply (proj1 (proj2 (C7_allowViewer alice 2 0 minted_state)));
      [vm_compute |]; reflexivity.
  - apply (proj1 (proj2 (proj2 (C7_allowViewer carol 2 bob minted_state))));
      [vm_compute; reflexivity | vm_compute; lia .. | vm_compute; reflexivity].
  - apply (proj1 (proj2 (proj2 (proj2 (C7_allowViewer alice 2 bob minted_state)))));
      [vm_compute; reflexivity | vm_compute; lia |]. left. vm_compute. reflexivity.
Defined.

(** ** C9: a transfer to oneself *)

Lemma self_transfer_run sender a t s :
  ownership_inv s -> _owners s t = a -> a <> 0 ->
  _isApprovedOrOwner sender t a s = true ->
  _transfer sender a a t s =
    (Ok tt,
     set_fhe (grant_all (_fighterAttributes s t) a (fhe s))
       (set_owners (<[t := a]> (_owners s))
          (set_balances
             (<[a := (<[a := _balances s a - 1]> (_balances s)) a + 1]>
                (<[a := _balances s a - 1]> (_balances s)))
             (set_tokenApprovals (<[t := 0]> (_tokenApprovals s)) s)))).
Proof.
  intros Hinv Hown Ha Hauth.
  assert (Hb1 : 1 <= _balances s a).
  { rewrite (inv_balance _ Hinv).
    assert (Hi : _ownedTokens s a !! N.to_nat (_ownedTokensIndex s t) = Some t).
    { rewrite <- Hown. apply (inv_enum _ Hinv). congruence. }
    apply lookup_lt_Some in Hi. lia. }
  pose proof (balance_bound s a Hinv) as Hb2.
  unfold _transfer. mred.
  destruct (N.eqb_spec a 0); [congruence |]. mred. rewrite Hown.
  destruct (N.eqb_spec a 0); [congruence |]. mred. rewrite Hown, N.eqb_refl. mred.
  rewrite Hauth. mred.
  rewrite beforeTokenTransfer_self. unfold checked_sub, checked_add.
  destruct (N.leb_spec 1 (_balances s a)); [| lia]. mred.
  rewrite ins_eq.
  destruct (N.leb_spec (_balances s a - 1 + 1) MAX_UINT256); [| lia]. mred.
  reflexivity.
Qed.

(** C9. From a reachable state, a transfer of an existing token [t] from
    its owner to the same owner by an authorized caller succeeds.  It leaves
    every owner's token array, the reverse index, the owner of every token,
    every balance, the operator approvals, the counters and the attribute
    records as they were; it clears the approval of [t] and of no other
    token, and it grants the owner on the current handles of [t]. *)
Theorem C9_self_transfer (this : address) (s : state) (sender a : address) (t : uint256) :
  reachable this s ->
  _exists t s = true -> _owners s t = a ->
  _isApprovedOrOwner sender t a s = true ->
  exists s',
    external (transferFrom sender a a t) s = (Ok tt, s')
    /\ (forall o, _ownedTokens s' o = _ownedTokens s o)
    /\ (forall x, _ownedTokensIndex s' x = _ownedTokensIndex s x)
    /\ (forall x, _owners s' x = _owners s x)
    /\ ownerOf t s' = (Ok a, s')
    /\ (forall o, _balances s' o = _balances s o)
    /\ _nextTokenId s' = _nextTokenId s /\ _totalMinted s' = _totalMinted s
    /\ _operatorApprovals s' = _operatorApprovals s
    /\ _fighterAttributes s' = _fighterAttributes s
    /\ (forall x, _tokenApprovals s' x = if x =? t then 0 else _tokenApprovals s x)
    /\ fhe s' = grant_all (_fighterAttributes s t) a (fhe s).
Proof.
  intros Hreach Hex Hown Hauth. pose proof (reachable_inv _ _ Hreach) as [Hinv _].
  apply exists_true in Hex. assert (Ha : a <> 0) by congruence.
  eexists. split.
  { unfold external, transferFrom.
    rewrite (self_transfer_run sender a t s Hinv Hown Ha Hauth). reflexivity. }
  simpl_state.
  assert (Howners : forall x, (<[t := a]> (_owners s)) x = _owners s x).
  { intros x. rewrite <- Hown. apply ins_id. }
  refine (conj _ (conj _ (conj Howners (conj _ (conj _ _))))); try reflexivity.
  - unfold ownerOf. mred. rewrite ins_eq.
    destruct (N.eqb_spec a 0); [congruence |]. mred. now rewrite ins_eq.
  - intros o. destruct (N.eq_dec a o) as [<- | Hne]; fsimpl; [| reflexivity].
    pose proof (inv_balance _ Hinv a) as Hbal.
    assert (Hi : _ownedTokens s a !! N.to_nat (_ownedTokensIndex s t) = Some t).
    { rewrite <- Hown. apply (inv_enum _ Hinv). congruence. }
    apply lookup_lt_Some in Hi. lia.
  - repeat (split; [reflexivity |]). split; [| reflexivity].
    intros x. destruct (N.eqb_spec x t) as [-> | Hne]; now fsimpl.
Qed.

Lemma C9_self_transfer_witness :
  reachable contract_address minted_state
  /\ _exists 2 minted_state = true
  /\ _owners minted_state 2 = alice
  /\ _isApprovedOrOwner alice 2 alice minted_state = true
  /\ exists s',
       external (transferFrom alice alice alice 2) minted_state = (Ok tt, s')
       /\ (forall o, _ownedTokens s' o = _ownedTokens minted_state o).
Proof.
  assert (H1 : _exists 2 minted_state = true) by (vm_compute; reflexivity).
  assert (H2 : _owners minted_state 2 = alice) by (vm_compute; reflexivity).
  assert (H3 : _isApprovedOrOwner alice 2 alice minted_state = true)
    by (vm_compute; reflexivity).
  destruct (C9_self_transfer contract_address minted_state alice alice 2
              minted_state_reachable H1 H2 H3) as (s' & Hrun & Htoks & _).
  split; [exact minted_state_reachable |]. split; [exact H1 |]. split; [exact H2 |].
  split; [exact H3 |]. exists s'. split; assumption.
Defined.

(** * Further properties of the contract *)

(** ** What a successful [mintFighter] writes *)

Lemma mintFighter_effects this sender a b c s id s' :
  mintFighter this sender a b c s = (Ok id, s') ->
  id = _nextTokenId s /\ sender <> 0 /\ _validateDistribution a b c = Ok tt
  /\ _nextTokenId s' = _nextTokenId s + 1 /\ _totalMinted s' = _totalMinted s + 1
  /\ _owners s' = <[id := sender]> (_owners s)
  /\ _balances s' = <[sender := _balances s sender + 1]> (_balances s)
  /\ _tokenApprovals s' = _tokenApprovals s
  /\ _operatorApprovals s' = _operatorApprovals s
  /\ _fighterAttributes s' = <[id := new_attributes a b c]> (_fighterAttributes s)
  /\ fhe s' = grant_all (new_attributes a b c) sender
                (grant_all (new_attributes a b c) this (encrypted a b c (fhe s)))
  /\ _ownedTokens s' sender = _ownedTokens s sender ++ [id]
  /\ (forall o, o <> sender -> _ownedTokens s' o = _ownedTokens s o).
Proof.
  intros Hrun. apply mintFighter_inversion in Hrun as (-> & _ & _ & Hv & Hmint).
  pose proof (mint_inversion _ _ _ _ Hmint) as (Hsender & _).
  apply mint_effects in Hmint
    as (Hn & Hm & Ho & Hb & Hta & Hoa & Hfa & Hfhe & Hl & Hlo).
  unfold staged_mint in *. cbn [_nextTokenId _totalMinted _owners _balances _tokenApprovals
    _operatorApprovals _fighterAttributes _ownedTokens fhe set_fhe set_fighterAttributes
    set_totalMinted set_nextTokenId] in *.
  tauto.
Qed.

(** ** Readability by the owner and validity of the stored values *)

(** A call that stores a new record for [t], owned by [who] afterwards. *)
Lemma access_inv_encrypt this s s' t who a b c :
  cipher_inv s -> access_inv this s ->
  _validateDistribution a b c = Ok tt ->
  _owners s' t = who ->
  (forall x, x <> t -> _owners s' x = _owners s x) ->
  _fighterAttributes s' = <[t := new_attributes a b c]> (_fighterAttributes s) ->
  fhe s' = grant_all (new_attributes a b c) who
             (grant_all (new_attributes a b c) this (encrypted a b c (fhe s))) ->
  access_inv this s'.
Proof.
  intros Hacl [Hsvc Hown Hdist] Hv Hwho Hother Hfa Hfhe.
  assert (Hold : forall x h, x <> t -> _owners s' x <> 0 ->
                 In h (handles (_fighterAttributes s' x)) ->
                 _owners s x <> 0 /\ In h (handles (_fighterAttributes s x))).
  { intros x h Hne Hx Hin. rewrite Hother in Hx by assumption.
    rewrite Hfa, ins_ne in Hin by congruence. auto. }
  constructor.
  - intros x h Hx Hin. rewrite Hfhe. destruct (N.eq_dec x t) as [-> | Hne].
    + rewrite Hfa, ins_eq in Hin. now apply acl_grant_all_mono, acl_grant_all_granted.
    + destruct (Hold x h Hne Hx Hin) as [Hx' Hin'].
      do 2 apply acl_grant_all_mono. unfold encrypted. simpl. eauto.
  - intros x h Hx Hin. rewrite Hfhe. destruct (N.eq_dec x t) as [-> | Hne].
    + rewrite Hfa, ins_eq in Hin. rewrite Hwho. now apply acl_grant_all_granted.
    + destruct (Hold x h Hne Hx Hin) as [Hx' Hin'].
      rewrite Hother by assumption.
      do 2 apply acl_grant_all_mono. unfold encrypted. simpl. eauto.
  - intros x Hx. rewrite Hfhe, !plaintext_grant_all, Hfa.
    destruct (N.eq_dec x t) as [-> | Hne].
    + rewrite ins_eq.
      destruct (plaintext_encrypted_new a b c (fhe s)) as (-> & -> & ->). exact Hv.
    + rewrite ins_ne by congruence. rewrite Hother in Hx by assumption.
      rewrite !plaintext_encrypted_old; [now apply Hdist | ..];
        apply (inv_handle_value _ Hacl x _ Hx); unfold handles; simpl; auto.
Qed.

(** A call that only adds grants on the handles of one record and may move
    that token to the grantee. *)
Lemma access_inv_grant this s s' t who :
  access_inv this s ->
  _owners s t <> 0 ->
  (_owners s' t = _owners s t \/ _owners s' t = who) ->
  (forall x, x <> t -> _owners s' x = _owners s x) ->
  _fighterAttributes s' = _fighterAttributes s ->
  fhe s' = grant_all (_fighterAttributes s t) who (fhe s) ->
  access_inv this s'.
Proof.
  intros [Hsvc Hown Hdist] Hex Ht Hother Hfa Hfhe.
  assert (Hexists : forall x, _owners s' x <> 0 -> _owners s x <> 0).
  { intros x Hx. destruct (N.eq_dec x t) as [-> | Hne]; [assumption |].
    now rewrite <- Hother. }
  constructor.
  - intros x h Hx Hin. rewrite Hfhe. rewrite Hfa in Hin.
    apply acl_grant_all_mono. eauto.
  - intros x h Hx Hin. rewrite Hfhe. rewrite Hfa in Hin.
    destruct (N.eq_dec x t) as [-> | Hne].
    + destruct Ht as [-> | ->].
      * apply acl_grant_all_mono. eauto.
      * now apply acl_grant_all_granted.
    + rewrite Hother by assumption. apply acl_grant_all_mono. eauto.
  - intros x Hx. rewrite Hfhe, plaintext_grant_all, Hfa. eauto.
Qed.

Lemma access_inv_frame this s s' :
  fhe s' = fhe s -> _fighterAttributes s' = _fighterAttributes s -> _owners s' = _owners s ->
  access_inv this s -> access_inv this s'.
Proof.
  intros Hf Ha Ho [? ? ?]. constructor; rewrite ?Hf, ?Ha, ?Ho; assumption.
Qed.

Lemma dispatch_access_inv this sender c s r s' :
  ownership_inv s -> cipher_inv s -> access_inv this s ->
  dispatch this sender c s = (Ok r, s') ->
  access_inv this s'.
Proof.
  intros Hown Hacl Hacc. destruct c; unfold dispatch; mred.
  - destruct (mintFighter this sender agilityPoints strengthPoints staminaPoints s)
      as [[id | e] s1] eqn:Hrun; [| stuck].
    intros Hret. injection Hret as _ <-.
    apply mintFighter_effects in Hrun
      as (-> & _ & Hv & _ & _ & Ho & _ & _ & _ & Hfa & Hfhe & _).
    apply (access_inv_encrypt this s s1 (_nextTokenId s) sender
             agilityPoints strengthPoints staminaPoints Hacl Hacc Hv);
      [rewrite Ho; apply ins_eq | | exact Hfa | exact Hfhe].
    intros x Hne. rewrite Ho. now apply ins_ne.
  - destruct (updateAttributes this sender tokenId agilityPoints strengthPoints staminaPoints s)
      as [[[] | e] s1] eqn:Hrun; [| stuck].
    intros Hret. injection Hret as _ <-.
    apply updateAttributes_inversion in Hrun as (_ & _ & Hv & ->).
    apply (access_inv_encrypt this s _ tokenId (_owners s tokenId)
             agilityPoints strengthPoints staminaPoints Hacl Hacc Hv); reflexivity.
  - rewrite allowViewer_unfold.
    destruct (N.eqb_spec (_owners s tokenId) 0); [stuck |].
    destruct (viewer =? 0); [stuck |].
    destruct (negb _); [stuck |].
    intros Hret. injection Hret as _ <-.
    apply (access_inv_grant this s _ tokenId viewer Hacc);
      [assumption | now left | reflexivity ..].
  - rewrite approve_unfold.
    destruct (_owners s tokenId =? 0); [stuck |].
    destruct (negb _ && negb _); [stuck |].
    intros Hret. injection Hret as _ <-.
    eapply access_inv_frame; [.. | exact Hacc]; reflexivity.
  - unfold setApprovalForAll. mred. intros Hret. injection Hret as _ <-.
    eapply access_inv_frame; [.. | exact Hacc]; reflexivity.
  - unfold transferFrom.
    destruct (_transfer sender from to tokenId s) as [[[] | e] s1] eqn:Hrun; [| stuck].
    intros Hret. injection Hret as _ <-.
    pose proof (transfer_effects _ _ _ _ _ _ Hown Hrun) as (_ & _ & Ho & _ & _ & Hfa & Hfhe).
    pose proof (transfer_inversion _ _ _ _ _ _ Hrun) as (_ & Hfrom & Hfrom0 & _).
    apply (access_inv_grant this s s1 tokenId to Hacc);
      [congruence | right; rewrite Ho; apply ins_eq | | exact Hfa | exact Hfhe].
    intros x Hne. rewrite Ho. now apply ins_ne.
  - unfold safeTransferFrom. mred.
    destruct (_transfer sender from to tokenId s) as [[[] | e] s1] eqn:Hrun; [| stuck].
    destruct accepted; mred; [| stuck].
    intros Hret. injection Hret as _ <-.
    pose proof (transfer_effects _ _ _ _ _ _ Hown Hrun) as (_ & _ & Ho & _ & _ & Hfa & Hfhe).
    pose proof (transfer_inversion _ _ _ _ _ _ Hrun) as (_ & Hfrom & Hfrom0 & _).
    apply (access_inv_grant this s s1 tokenId to Hacc);
      [congruence | right; rewrite Ho; apply ins_eq | | exact Hfa | exact Hfhe].
    intros x Hne. rewrite Ho. now apply ins_ne.
Qed.

Lemma reachable_access_inv this s : reachable this s -> access_inv this s.
Proof.
  intros [txs <-]. unfold run.
  assert (Hall : forall txs s0,
    ownership_inv s0 /\ cipher_inv s0 -> access_inv this s0 ->
    access_inv this (fold_left (step this) txs s0)).
  { clear txs. induction txs as [| tx txs IH]; intros s0 Hinv Hacc; [exact Hacc |].
    simpl. apply IH; [now apply step_inv |].
    destruct (step_cases this s0 tx) as [[r Hrun] | ->]; [| exact Hacc].
    destruct Hinv as [Hown Hacl]. eapply dispatch_access_inv; eauto. }
  apply Hall; [apply genesis_inv |].
  constructor; simpl; intros; congruence.
Qed.

(** ** When a transfer goes through *)

Lemma transfer_run sender from to t s :
  ownership_inv s -> to <> 0 -> _owners s t = from -> from <> 0 ->
  _isApprovedOrOwner sender t from s = true ->
  exists s', _transfer sender from to t s = (Ok tt, s').
Proof.
  intros Hinv Hto Hown Hfrom Hauth.
  destruct (N.eq_dec from to) as [<- | Hft].
  { eexists. now apply self_transfer_run. }
  assert (Hi : _ownedTokens s from !! N.to_nat (_ownedTokensIndex s t) = Some t).
  { rewrite <- Hown. apply (inv_enum _ Hinv). congruence. }
  pose proof (lookup_lt_Some _ _ _ Hi) as Hlen.
  destruct (lookup_lt_is_Some_2 (_ownedTokens s from)
              (Nat.pred (length (_ownedTokens s from)))) as [lastTok Hlast]; [lia |].
  destruct (beforeTokenTransfer_move s from to t lastTok Hft Hfrom Hto Hi Hlast)
    as (s1 & Hbefore & Hframe & _).
  pose proof (inv_balance _ Hinv from) as Hbal.
  pose proof (balance_bound s to Hinv) as Hb2.
  unfold _transfer. mred.
  destruct (N.eqb_spec to 0); [congruence |]. mred. rewrite Hown.
  destruct (N.eqb_spec from 0); [congruence |]. mred. rewrite Hown, N.eqb_refl. mred.
  rewrite Hauth. mred. rewrite Hbefore. unfold checked_sub, checked_add.
  rewrite (sbe_balances _ _ Hframe).
  destruct (N.leb_spec 1 (_balances s from)); [| lia]. mred.
  rewrite ins_ne by congruence.
  destruct (N.leb_spec (_balances s to + 1) MAX_UINT256); [| lia]. mred.
  eauto.
Qed.

Lemma transfer_errors sender from to t s :
  (to = 0 -> _transfer sender from to t s = (Revert InvalidAddress, s))
  /\ (to <> 0 -> _owners s t = 0 ->
      _transfer sender from to t s = (Revert (FighterDoesNotExist t), s))
  /\ (to <> 0 -> _owners s t <> 0 -> _owners s t <> from ->
      _transfer sender from to t s = (Revert NotAuthorized, s))
  /\ (to <> 0 -> _owners s t <> 0 -> _owners s t = from ->
      _isApprovedOrOwner sender t from s = false ->
      _transfer sender from to t s = (Revert NotAuthorized, s)).
Proof.
  unfold _transfer. mred. repeat split.
  - intros ->. reflexivity.
  - intros Hto Hex. destruct (N.eqb_spec to 0); [congruence |]. mred. now rewrite Hex.
  - intros Hto Hex Hown. destruct (N.eqb_spec to 0); [congruence |]. mred.
    destruct (N.eqb_spec (_owners s t) 0); [congruence |]. mred.
    destruct (N.eqb_spec (_owners s t) from); [congruence | reflexivity].
  - intros Hto Hex Hown Hauth. destruct (N.eqb_spec to 0); [congruence |]. mred.
    destruct (N.eqb_spec (_owners s t) 0); [congruence |]. mred.
    rewrite Hown, N.eqb_refl. mred. now rewrite Hauth.
Qed.

Lemma external_revert {A} (m : M A) s e s1 :
  m s = (Revert e, s1) -> external m s = (Revert e, s).
Proof. intros H. unfold external. now rewrite H. Qed.

Lemma moved_state_reachable : reachable contract_address moved_state.
Proof.
  exists (four_mints ++ [(alice, TransferFrom alice bob 1)]).
  unfold moved_state. reflexivity.
Defined.

Lemma rewritten_state_reachable : reachable contract_address rewritten_state.
Proof.
  exists (four_mints ++ [(alice, Approve carol 2); (alice, AllowViewer 2 bob);
                         (carol, UpdateAttributes 2 2 5 3)]).
  unfold rewritten_state. reflexivity.
Defined.

Lemma transferFrom_succeeds sender from to t s :
  ownership_inv s -> to <> 0 -> _exists t s = true -> _owners s t = from ->
  _isApprovedOrOwner sender t from s = true ->
  exists s', external (transferFrom sender from to t) s = (Ok tt, s').
Proof.
  intros Hinv Hto Hex Hown Hauth. apply exists_true in Hex.
  destruct (transfer_run sender from to t s Hinv Hto Hown) as [s' Hrun];
    [congruence | assumption |].
  exists s'. now apply external_ok.
Qed.

Lemma transferFrom_unauthorized sender from to t s :
  to <> 0 -> _exists t s = true -> _owners s t = from ->
  _isApprovedOrOwner sender t from s = false ->
  external (transferFrom sender from to t) s = (Revert NotAuthorized, s).
Proof.
  intros Hto Hex Hown Hauth. apply exists_true in Hex.
  eapply external_revert. now apply transfer_errors.
Qed.

(** X1. In a reachable state [transferFrom] checks, in this order, that the
    recipient is not the null address ([InvalidAddress], even for a token that
    does not exist), that the token exists ([FighterDoesNotExist]), that
    [from] is its owner and that the caller is the owner, the approved
    address or an operator of the owner (both [NotAuthorized]).  Each failure
    leaves the storage untouched, and when all four checks pass the transfer
    succeeds. *)
Theorem transferFrom_outcome (this : address) (s : state) (sender from to : address)
    (t : uint256) :
  reachable this s ->
  (to = 0 -> external (transferFrom sender from to t) s = (Revert InvalidAddress, s))
  /\ (to <> 0 -> _exists t s = false ->
      external (transferFrom sender from to t) s = (Revert (FighterDoesNotExist t), s))
  /\ (to <> 0 -> _exists t s = true -> _owners s t <> from ->
      external (transferFrom sender from to t) s = (Revert NotAuthorized, s))
  /\ (to <> 0 -> _exists t s = true -> _owners s t = from ->
      _isApprovedOrOwner sender t from s = false ->
      external (transferFrom sender from to t) s = (Revert NotAuthorized, s))
  /\ (to <> 0 -> _exists t s = true -> _owners s t = from ->
      _isApprovedOrOwner sender t from s = true ->
      exists s', external (transferFrom sender from to t) s = (Ok tt, s')).
Proof.
  intros Hreach. pose proof (reachable_inv _ _ Hreach) as [Hinv _].
  destruct (transfer_errors sender from to t s) as (E1 & E2 & E3 & E4).
  unfold transferFrom. split; [| split; [| split; [| split]]].
  - intros Hto. eapply external_revert; eauto.
  - intros Hto Hex. eapply external_revert. apply E2; [assumption |].
    unfold _exists, zero_address in Hex.
    destruct (N.eqb_spec (_owners s t) 0); [assumption | discriminate].
  - intros Hto Hex Hown. apply exists_true in Hex. eapply external_revert; eauto.
  - intros Hto Hex Hown Hauth. apply exists_true in Hex. eapply external_revert; eauto.
  - intros Hto Hex Hown Hauth. apply exists_true in Hex.
    destruct (transfer_run sender from to t s Hinv Hto Hown) as [s' Hrun];
      [congruence | assumption |].
    exists s'. now apply external_ok.
Qed.

Lemma transferFrom_outcome_witness :
  reachable contract_address minted_state
  /\ external (transferFrom alice alice 0 9) minted_state = (Revert InvalidAddress, minted_state)
  /\ external (transferFrom alice alice bob 9) minted_state
     = (Revert (FighterDoesNotExist 9), minted_state)
  /\ external (transferFrom alice bob carol 1) minted_state = (Revert NotAuthorized, minted_state)
  /\ external (transferFrom carol alice bob 1) minted_state = (Revert NotAuthorized, minted_state)
  /\ (exists s', external (transferFrom alice alice bob 1) minted_state = (Ok tt, s')).
Proof.
  split; [exact minted_state_reachable |].
  split; [| split; [| split; [| split]]].
  - apply (proj1 (transferFrom_outcome contract_address minted_state alice alice 0 9
                    minted_state_reachable)). reflexivity.
  - apply (proj1 (proj2 (transferFrom_outcome contract_address minted_state alice alice bob 9
                           minted_state_reachable)));
      [unfold bob; lia | vm_compute; reflexivity].
  - apply (proj1 (proj2 (proj2 (transferFrom_outcome contract_address minted_state alice bob
                                  carol 1 minted_state_reachable))));
      [unfold carol; lia | vm_compute; reflexivity | vm_compute; lia].
  - apply (proj1 (proj2 (proj2 (proj2 (transferFrom_outcome contract_address minted_state
                                         carol alice bob 1 minted_state_reachable)))));
      [unfold bob; lia | vm_compute; reflexivity ..].
  - apply (proj2 (proj2 (proj2 (proj2 (transferFrom_outcome contract_address minted_state
                                         alice alice bob 1 minted_state_reachable)))));
      [unfold bob; lia | vm_compute; reflexivity ..].
Defined.

(** ** Tokens are never destroyed and change hands only by transfer *)

Lemma dispatch_owners this sender c s r s' :
  ownership_inv s ->
  dispatch this sender c s = (Ok r, s') ->
  (forall t, _owners s t <> 0 -> _owners s' t = _owners s t)
  \/ (exists from to t accepted,
        (c = TransferFrom from to t \/ c = SafeTransferFrom from to t accepted)
        /\ accepted = true
        /\ _transfer sender from to t s = (Ok tt, s')).
Proof.
  intros Hown. destruct c; unfold dispatch; mred.
  - destruct (mintFighter this sender agilityPoints strengthPoints staminaPoints s)
      as [[id | e] s1] eqn:Hrun; [| stuck].
    intros Hret. injection Hret as _ <-. left. intros t Ht.
    apply mintFighter_effects in Hrun as (-> & _ & _ & _ & _ & -> & _).
    apply ins_ne. intros Heq. rewrite <- Heq in Ht. now rewrite next_id_free in Ht.
  - destruct (updateAttributes this sender tokenId agilityPoints strengthPoints staminaPoints s)
      as [[[] | e] s1] eqn:Hrun; [| stuck].
    intros Hret. injection Hret as _ <-.
    apply updateAttributes_inversion in Hrun as (_ & _ & _ & ->). now left.
  - rewrite allowViewer_unfold.
    destruct (_owners s tokenId =? 0); [stuck |].
    destruct (viewer =? 0); [stuck |].
    destruct (negb _); [stuck |].
    intros Hret. injection Hret as _ <-. now left.
  - rewrite approve_unfold.
    destruct (_owners s tokenId =? 0); [stuck |].
    destruct (negb _ && negb _); [stuck |].
    intros Hret. injection Hret as _ <-. now left.
  - unfold setApprovalForAll. mred. intros Hret. injection Hret as _ <-. now left.
  - unfold transferFrom.
    destruct (_transfer sender from to tokenId s) as [[[] | e] s1] eqn:Hrun; [| stuck].
    intros Hret. injection Hret as _ <-. right. exists from, to, tokenId, true. auto.
  - unfold safeTransferFrom. mred.
    destruct (_transfer sender from to tokenId s) as [[[] | e] s1] eqn:Hrun; [| stuck].
    destruct accepted; mred; [| stuck].
    intros Hret. injection Hret as _ <-. right. exists from, to, tokenId, true. auto.
Qed.

(** X3. No call destroys a token or lowers the supply: a token that exists
    before a call exists after it, [totalSupply] never decreases, and in
    every reachable state the existing tokens are exactly the ids from 1 to
    [totalSupply]. *)
Theorem tokens_are_never_destroyed (this : address) (s : state) (tx : address * call) :
  reachable this s ->
  (forall t, _exists t s = true <-> 1 <= t <= _totalMinted s)
  /\ (forall t, _exists t s = true -> _exists t (step this s tx) = true)
  /\ _totalMinted s <= _totalMinted (step this s tx)
  /\ totalSupply s = (Ok (_nextTokenId s - 1), s).
Proof.
  intros Hreach. pose proof (reachable_inv _ _ Hreach) as [Hown Hacl].
  pose proof (reachable_inv _ _ (reachable_step this s tx Hreach)) as [Hown' _].
  pose proof (step_next_id this s tx Hown Hacl) as Hnext.
  pose proof (inv_counter _ Hown) as Hc. pose proof (inv_counter _ Hown') as Hc'.
  split; [| split; [| split]].
  - intros t. rewrite exists_true, (inv_exists _ Hown). lia.
  - intros t. rewrite !exists_true, (inv_exists _ Hown), (inv_exists _ Hown'). lia.
  - lia.
  - unfold totalSupply, gets. f_equal. f_equal. lia.
Qed.

Lemma tokens_are_never_destroyed_witness :
  reachable contract_address minted_state
  /\ _exists 3 minted_state = true
  /\ _exists 3 (step contract_address minted_state (alice, TransferFrom alice bob 3)) = true.
Proof.
  assert (H3 : _exists 3 minted_state = true) by (vm_compute; reflexivity).
  split; [exact minted_state_reachable |]. split; [exact H3 |].
  exact (proj1 (proj2 (tokens_are_never_destroyed contract_address minted_state
                         (alice, TransferFrom alice bob 3) minted_state_reachable)) 3 H3).
Defined.

(** X4. The owner of an existing token changes only through a successful
    [transferFrom] or [safeTransferFrom] of that token, named from its
    current owner and issued by the owner, the approved address or an
    operator of the owner; minting, updating, approving and granting never
    move a token. *)
Theorem owner_changes_only_by_transfer (this : address) (s : state) (sender : address)
    (c : call) (t : uint256) :
  reachable this s ->
  _exists t s = true ->
  _owners (step this s (sender, c)) t <> _owners s t ->
  exists to,
    (c = TransferFrom (_owners s t) to t \/ c = SafeTransferFrom (_owners s t) to t true)
    /\ _isApprovedOrOwner sender t (_owners s t) s = true
    /\ to <> 0
    /\ _owners (step this s (sender, c)) t = to.
Proof.
  intros Hreach Hex Hchg. pose proof (reachable_inv _ _ Hreach) as [Hown _].
  apply exists_true in Hex.
  destruct (step_cases this s (sender, c)) as [[r Hrun] | Hsame];
    [| rewrite Hsame in Hchg; congruence].
  cbn [fst snd] in Hrun.
  destruct (dispatch_owners _ _ _ _ _ _ Hown Hrun)
    as [Hkeep | (from & to & t' & accepted & Hc & -> & Htr)].
  { exfalso. apply Hchg. now apply Hkeep. }
  pose proof (transfer_effects _ _ _ _ _ _ Hown Htr) as (_ & _ & Ho & _).
  pose proof (transfer_inversion _ _ _ _ _ _ Htr) as (Hto & Hfrom & _ & Hauth & _).
  rewrite Ho in *.
  destruct (N.eq_dec t' t) as [-> | Hne]; [| rewrite ins_ne in Hchg by congruence; congruence].
  exists to. rewrite ins_eq. subst from. auto.
Qed.

Lemma owner_changes_only_by_transfer_witness :
  reachable contract_address minted_state
  /\ _exists 1 minted_state = true
  /\ exists to,
       ((TransferFrom alice bob 1 = TransferFrom (_owners minted_state 1) to 1
         \/ TransferFrom alice bob 1 = SafeTransferFrom (_owners minted_state 1) to 1 true)
        /\ _isApprovedOrOwner alice 1 (_owners minted_state 1) minted_state = true
        /\ to <> 0
        /\ _owners (step contract_address minted_state (alice, TransferFrom alice bob 1)) 1 = to).
Proof.
  assert (H1 : _exists 1 minted_state = true) by (vm_compute; reflexivity).
  split; [exact minted_state_reachable |]. split; [exact H1 |].
  apply (owner_changes_only_by_transfer contract_address minted_state alice
           (TransferFrom alice bob 1) 1 minted_state_reachable H1).
  vm_compute. lia.
Defined.

(** ** Queries *)

(** X5. In a reachable state [ownerOf], [getApproved] and
    [getEncryptedAttributes] answer for exactly the ids from 1 to
    [totalSupply], with a non-null owner, and revert with
    [FighterDoesNotExist] for id 0 and for every id above the supply;
    [balanceOf] reverts with [InvalidAddress] for the null address, whose
    token list is empty. *)
Theorem queries_on_tokens (this : address) (s : state) (t : uint256) :
  reachable this s ->
  (1 <= t <= _totalMinted s ->
     ownerOf t s = (Ok (_owners s t), s) /\ _owners s t <> 0
     /\ getApproved t s = (Ok (_tokenApprovals s t), s)
     /\ getEncryptedAttributes t s = (Ok (_fighterAttributes s t), s))
  /\ (t = 0 \/ _totalMinted s < t ->
      ownerOf t s = (Revert (FighterDoesNotExist t), s)
      /\ getApproved t s = (Revert (FighterDoesNotExist t), s)
      /\ getEncryptedAttributes t s = (Revert (FighterDoesNotExist t), s))
  /\ balanceOf 0 s = (Revert InvalidAddress, s)
  /\ fightersOf 0 s = (Ok [], s).
Proof.
  intros Hreach. pose proof (reachable_inv _ _ Hreach) as [Hown _].
  pose proof (inv_counter _ Hown) as Hc. pose proof (inv_exists _ Hown t) as Hex.
  unfold ownerOf, getApproved, getEncryptedAttributes, fightersOf. mred.
  split; [| split; [| split]].
  - intros Ht. assert (Hne : _owners s t <> 0) by (apply Hex; lia).
    destruct (N.eqb_spec (_owners s t) 0); [congruence |]. auto.
  - intros Ht. destruct (N.eqb_spec (_owners s t) 0) as [| Hne]; [auto |].
    apply Hex in Hne. lia.
  - reflexivity.
  - destruct (_ownedTokens s 0) as [| x l] eqn:Hl; [reflexivity |].
    destruct (proj2 (inv_enum _ Hown) 0 0%nat x) as (_ & Habs & _);
      [now rewrite Hl | congruence].
Qed.

Lemma queries_on_tokens_witness :
  reachable contract_address minted_state
  /\ ownerOf 4 minted_state = (Ok (_owners minted_state 4), minted_state)
  /\ ownerOf 0 minted_state = (Revert (FighterDoesNotExist 0), minted_state)
  /\ ownerOf 5 minted_state = (Revert (FighterDoesNotExist 5), minted_state).
Proof.
  split; [exact minted_state_reachable |]. split; [| split].
  - apply (proj1 (queries_on_tokens contract_address minted_state 4 minted_state_reachable)).
    vm_compute. split; discriminate.
  - apply (proj1 (proj2 (queries_on_tokens contract_address minted_state 0
                           minted_state_reachable))). left. reflexivity.
  - apply (proj1 (proj2 (queries_on_tokens contract_address minted_state 5
                           minted_state_reachable))). right. vm_compute. reflexivity.
Defined.

(** ** Approvals *)

(** X6. [approve] reverts with [FighterDoesNotExist] for a token that does
    not exist and with [NotAuthorized] for a caller that is neither the owner
    nor an operator of the owner, the currently approved address included.
    For the owner or an operator it succeeds for any [to], the null address
    and the owner included; afterwards [getApproved] returns [to], and
    nothing else in the storage has changed. *)
Theorem approve_outcome (sender to : address) (t : uint256) (s : state) :
  (_exists t s = false ->
   external (approve sender to t) s = (Revert (FighterDoesNotExist t), s))
  /\ (_exists t s = true -> sender <> _owners s t ->
      _operatorApprovals s (_owners s t) sender = false ->
      external (approve sender to t) s = (Revert NotAuthorized, s))
  /\ (_exists t s = true ->
      sender = _owners s t \/ _operatorApprovals s (_owners s t) sender = true ->
      let s' := set_tokenApprovals (<[t := to]> (_tokenApprovals s)) s in
      external (approve sender to t) s = (Ok tt, s')
      /\ getApproved t s' = (Ok to, s')
      /\ (forall x, x <> t -> _tokenApprovals s' x = _tokenApprovals s x)).
Proof.
  unfold external. rewrite approve_unfold. unfold _exists, zero_address.
  split; [| split].
  - destruct (_owners s t =? 0); [reflexivity | discriminate].
  - intros Hex Hs Hop. destruct (_owners s t =? 0); [discriminate |].
    destruct (N.eqb_spec sender (_owners s t)); [congruence |]. now rewrite Hop.
  - intros Hex Hauth.
    destruct (N.eqb_spec (_owners s t) 0) as [| Hne]; [discriminate |].
    assert (Hpass : negb (sender =? _owners s t)
                    && negb (_operatorApprovals s (_owners s t) sender) = false).
    { destruct Hauth as [-> | ->]; [now rewrite N.eqb_refl | apply andb_false_r]. }
    rewrite Hpass. split; [reflexivity |]. split.
    + unfold getApproved. mred.
      destruct (N.eqb_spec (_owners s t) 0); [congruence |]. mred. now rewrite ins_eq.
    + intros x Hx. simpl_state. now apply ins_ne.
Qed.

Lemma approve_outcome_witness :
  external (approve alice carol 9) minted_state = (Revert (FighterDoesNotExist 9), minted_state)
  /\ external (approve carol bob 2) delegated_state = (Revert NotAuthorized, delegated_state)
  /\ getApproved 2 (set_tokenApprovals (<[2 := carol]> (_tokenApprovals minted_state))
                      minted_state)
     = (Ok carol, set_tokenApprovals (<[2 := carol]> (_tokenApprovals minted_state))
                    minted_state).
Proof.
  split; [| split].
  - apply (proj1 (approve_outcome alice carol 9 minted_state)). vm_compute. reflexivity.
  - apply (proj1 (proj2 (approve_outcome carol bob 2 delegated_state)));
      [vm_compute; reflexivity | vm_compute; lia | vm_compute; reflexivity].
  - apply (proj2 (proj2 (approve_outcome alice carol 2 minted_state)));
      [vm_compute; reflexivity |]. left. vm_compute. reflexivity.
Defined.

Lemma step_setApprovalForAll this s owner operator approved :
  step this s (owner, SetApprovalForAll operator approved)
  = set_operatorApprovals
      (<[owner := <[operator := approved]> (_operatorApprovals s owner)]>
         (_operatorApprovals s)) s.
Proof. reflexivity. Qed.

(** X7. [setApprovalForAll] always succeeds and [isApprovedForAll] then
    returns the flag just set.  From a reachable state, once the owner of a
    token has enabled an operator, the operator can transfer the token; once
    the owner has disabled the operator again, a transfer by that operator
    reverts with [NotAuthorized] unless the operator is the owner or the
    approved address of the token. *)
Theorem operator_approval_roundtrip (this : address) (s : state) (owner operator to : address)
    (t : uint256) :
  reachable this s ->
  _exists t s = true -> _owners s t = owner -> to <> 0 ->
  let s1 := step this s (owner, SetApprovalForAll operator true) in
  let s2 := step this s1 (owner, SetApprovalForAll operator false) in
  isApprovedForAll owner operator s1 = (Ok true, s1)
  /\ (exists s', external (transferFrom operator owner to t) s1 = (Ok tt, s'))
  /\ isApprovedForAll owner operator s2 = (Ok false, s2)
  /\ (operator <> owner -> _tokenApprovals s t <> operator ->
      external (transferFrom operator owner to t) s2 = (Revert NotAuthorized, s2)).
Proof.
  intros Hreach Hex Hown Hto s1 s2.
  assert (Hreach1 : reachable this s1) by now apply reachable_step.
  assert (Hreach2 : reachable this s2) by now apply reachable_step.
  unfold s2, s1 in *. rewrite !step_setApprovalForAll in *.
  split; [| split; [| split]].
  - unfold isApprovedForAll, gets. simpl_state. now rewrite !ins_eq.
  - apply transferFrom_succeeds; try assumption;
      [exact (proj1 (reachable_inv _ _ Hreach1)) |].
    unfold _isApprovedOrOwner. simpl_state. rewrite !ins_eq. apply orb_true_r.
  - unfold isApprovedForAll, gets. simpl_state. now rewrite !ins_eq.
  - intros Hne Happ.
    apply transferFrom_unauthorized; try assumption.
    unfold _isApprovedOrOwner. simpl_state. rewrite !ins_eq.
    destruct (N.eqb_spec operator owner); [congruence |].
    destruct (N.eqb_spec (_tokenApprovals s t) operator); [congruence | reflexivity].
Qed.

Lemma operator_approval_roundtrip_witness :
  reachable contract_address minted_state
  /\ _exists 2 minted_state = true
  /\ _owners minted_state 2 = alice
  /\ exists s',
       external (transferFrom carol alice bob 2)
         (step contract_address minted_state (alice, SetApprovalForAll carol true))
       = (Ok tt, s').
Proof.
  assert (H1 : _exists 2 minted_state = true) by (vm_compute; reflexivity).
  assert (H2 : _owners minted_state 2 = alice) by (vm_compute; reflexivity).
  assert (H3 : bob <> 0) by (unfold bob; lia).
  split; [exact minted_state_reachable |]. split; [exact H1 |]. split; [exact H2 |].
  exact (proj1 (proj2 (operator_approval_roundtrip contract_address minted_state alice carol
                         bob 2 minted_state_reachable H1 H2 H3))).
Defined.

(** ** Who can read the attributes *)

(** X8. In every reachable state the contract itself and the current owner
    of every existing token are granted on each of the three handles currently
    stored for the token, whatever sequence of mints, updates, grants and
    transfers led there. *)
Theorem owner_can_always_read (this : address) (s : state) (t : uint256) (h : euint32) :
  reachable this s ->
  _exists t s = true ->
  In h (handles (_fighterAttributes s t)) ->
  canRead s h this = true /\ canRead s h (_owners s t) = true.
Proof.
  intros Hreach Hex Hin. apply exists_true in Hex.
  pose proof (reachable_access_inv _ _ Hreach) as [Hsvc Hown _].
  unfold canRead. eauto.
Qed.

Lemma owner_can_always_read_witness :
  reachable contract_address rewritten_state
  /\ _exists 2 rewritten_state = true
  /\ canRead rewritten_state (agility (_fighterAttributes rewritten_state 2)) alice = true.
Proof.
  assert (H1 : _exists 2 rewritten_state = true) by (vm_compute; reflexivity).
  split; [exact rewritten_state_reachable |]. split; [exact H1 |].
  apply (owner_can_always_read contract_address rewritten_state 2
           (agility (_fighterAttributes rewritten_state 2)) rewritten_state_reachable H1).
  left. reflexivity.
Defined.

(** X9. In every reachable state the three values behind the handles of an
    existing token are each at most 10 and sum to 10; after a successful mint
    or update they are the values the caller passed, in the order agility,
    strength, stamina. *)
Theorem stored_values_are_valid (this : address) (s : state) :
  reachable this s ->
  (forall t, _exists t s = true ->
     let A := _fighterAttributes s t in
     let v h := plaintext (fhe s) h in
     v (agility A) <= 10 /\ v (strength A) <= 10 /\ v (stamina A) <= 10
     /\ v (agility A) + v (strength A) + v (stamina A) = 10)
  /\ (forall sender a b c id s',
        external (mintFighter this sender a b c) s = (Ok id, s') ->
        let A := _fighterAttributes s' id in
        plaintext (fhe s') (agility A) = a /\ plaintext (fhe s') (strength A) = b
        /\ plaintext (fhe s') (stamina A) = c)
  /\ (forall sender t a b c s',
        external (updateAttributes this sender t a b c) s = (Ok tt, s') ->
        let A := _fighterAttributes s' t in
        plaintext (fhe s') (agility A) = a /\ plaintext (fhe s') (strength A) = b
        /\ plaintext (fhe s') (stamina A) = c).
Proof.
  intros Hreach. pose proof (reachable_access_inv _ _ Hreach) as [_ _ Hdist].
  split; [| split].
  - intros t Hex A v. apply exists_true in Hex. apply validate_ok. now apply Hdist.
  - intros sender a b c id s' Hrun A. apply -> (@external_ok N) in Hrun.
    apply mintFighter_effects in Hrun
      as (_ & _ & _ & _ & _ & _ & _ & _ & _ & Hfa & Hfhe & _).
    unfold A. rewrite Hfa, Hfhe, ins_eq, !plaintext_grant_all.
    apply plaintext_encrypted_new.
  - intros sender t a b c s' Hrun A. apply -> (@external_ok unit) in Hrun.
    apply updateAttributes_inversion in Hrun as (_ & _ & _ & ->).
    unfold A, updated. simpl_state. rewrite ins_eq, !plaintext_grant_all.
    apply plaintext_encrypted_new.
Qed.

Lemma stored_values_are_valid_witness :
  reachable contract_address rewritten_state
  /\ _exists 2 rewritten_state = true
  /\ plaintext (fhe rewritten_state) (agility (_fighterAttributes rewritten_state 2))
     + plaintext (fhe rewritten_state) (strength (_fighterAttributes rewritten_state 2))
     + plaintext (fhe rewritten_state) (stamina (_fighterAttributes rewritten_state 2)) = 10.
Proof.
  assert (H1 : _exists 2 rewritten_state = true) by (vm_compute; reflexivity).
  split; [exact rewritten_state_reachable |]. split; [exact H1 |].
  exact (proj2 (proj2 (proj2 (proj1 (stored_values_are_valid contract_address rewritten_state
                                       rewritten_state_reachable) 2 H1)))).
Defined.

Lemma dispatch_acl_mono this sender c s r s' h x :
  ownership_inv s ->
  dispatch this sender c s = (Ok r, s') ->
  acl (fhe s) h x = true -> acl (fhe s') h x = true.
Proof.
  intros Hown. destruct c; unfold dispatch; mred.
  - destruct (mintFighter this sender agilityPoints strengthPoints staminaPoints s)
      as [[id | e] s1] eqn:Hrun; [| stuck].
    intros Hret Hg. injection Hret as _ <-.
    apply mintFighter_effects in Hrun
      as (_ & _ & _ & _ & _ & _ & _ & _ & _ & _ & -> & _).
    now do 2 apply acl_grant_all_mono.
  - destruct (updateAttributes this sender tokenId agilityPoints strengthPoints staminaPoints s)
      as [[[] | e] s1] eqn:Hrun; [| stuck].
    intros Hret Hg. injection Hret as _ <-.
    apply updateAttributes_inversion in Hrun as (_ & _ & _ & ->).
    unfold updated. simpl_state. now do 2 apply acl_grant_all_mono.
  - rewrite allowViewer_unfold.
    destruct (_owners s tokenId =? 0); [stuck |].
    destruct (viewer =? 0); [stuck |].
    destruct (negb _); [stuck |].
    intros Hret Hg. injection Hret as _ <-. simpl_state. now apply acl_grant_all_mono.
  - rewrite approve_unfold.
    destruct (_owners s tokenId =? 0); [stuck |].
    destruct (negb _ && negb _); [stuck |].
    intros Hret Hg. injection Hret as _ <-. exact Hg.
  - unfold setApprovalForAll. mred. intros Hret Hg. injection Hret as _ <-. exact Hg.
  - unfold transferFrom.
    destruct (_transfer sender from to tokenId s) as [[[] | e] s1] eqn:Hrun; [| stuck].
    intros Hret Hg. injection Hret as _ <-.
    pose proof (transfer_effects _ _ _ _ _ _ Hown Hrun) as (_ & _ & _ & _ & _ & _ & ->).
    now apply acl_grant_all_mono.
  - unfold safeTransferFrom. mred.
    destruct (_transfer sender from to tokenId s) as [[[] | e] s1] eqn:Hrun; [| stuck].
    destruct accepted; mred; [| stuck].
    intros Hret Hg. injection Hret as _ <-.
    pose proof (transfer_effects _ _ _ _ _ _ Hown Hrun) as (_ & _ & _ & _ & _ & _ & ->).
    now apply acl_grant_all_mono.
Qed.

(** X10. The contract never takes a grant back: whoever can read a handle
    before a call can read it after the call, whatever the call.  In
    particular the previous owner of a transferred token can still read its
    current handles after the transfer. *)
Theorem grants_are_never_removed (this : address) (s : state) :
  reachable this s ->
  (forall tx h who, canRead s h who = true -> canRead (step this s tx) h who = true)
  /\ (forall sender A B t s',
        external (transferFrom sender A B t) s = (Ok tt, s') ->
        forall h, In h (handles (_fighterAttributes s' t)) -> canRead s' h A = true).
Proof.
  intros Hreach. pose proof (reachable_inv _ _ Hreach) as [Hown _].
  assert (Hmono : forall tx h who,
    canRead s h who = true -> canRead (step this s tx) h who = true).
  { intros tx h who Hg. destruct (step_cases this s tx) as [[r Hrun] | ->]; [| exact Hg].
    unfold canRead in *. eapply dispatch_acl_mono; eauto. }
  split; [exact Hmono |].
  intros sender A B t s' Hrun h Hin.
  apply (transferFrom_step this) in Hrun as [Hrun Hstep].
  pose proof (transfer_effects _ _ _ _ _ _ Hown Hrun) as (_ & _ & _ & _ & _ & Hfa & _).
  pose proof (transfer_inversion _ _ _ _ _ _ Hrun) as (_ & HA & HA0 & _).
  rewrite <- Hstep. apply Hmono. rewrite Hfa in Hin. rewrite <- HA.
  unfold canRead. apply (inv_owner_reads _ _ (reachable_access_inv _ _ Hreach) t h);
    [congruence | exact Hin].
Qed.

Lemma grants_are_never_removed_witness :
  reachable contract_address minted_state
  /\ external (transferFrom alice alice bob 1) minted_state = (Ok tt, moved_state)
  /\ forall h, In h (handles (_fighterAttributes moved_state 1)) ->
       canRead moved_state h alice = true.
Proof.
  assert (Hrun : external (transferFrom alice alice bob 1) minted_state = (Ok tt, moved_state))
    by (vm_compute; reflexivity).
  split; [exact minted_state_reachable |]. split; [exact Hrun |].
  exact (proj2 (grants_are_never_removed contract_address minted_state minted_state_reachable)
           alice alice bob 1 moved_state Hrun).
Defined.

(** ** What the state-changing calls write *)

(** X11. A successful [mintFighter] from a reachable state makes the caller
    the owner of the new id, appends the id at the end of the caller's token
    list, raises the caller's balance and the supply by one, and leaves every
    other list and balance and the owner and attributes of every existing
    token as they were.  The three handles of the new token are readable by
    the caller and by the contract, and the mint grants nothing else: any
    other address reads one of them exactly when it held a grant on that
    handle before the mint, and grants on all other handles are as before. *)
Theorem mintFighter_outcome (this : address) (s : state) (sender : address) (a b c : uint32)
    (id : uint256) (s' : state) :
  reachable this s ->
  external (mintFighter this sender a b c) s = (Ok id, s') ->
  ownerOf id s' = (Ok sender, s')
  /\ fightersOf sender s' = (Ok (_ownedTokens s sender ++ [id]), s')
  /\ _balances s' sender = _balances s sender + 1
  /\ _totalMinted s' = _totalMinted s + 1
  /\ (forall o, o <> sender ->
        _ownedTokens s' o = _ownedTokens s o /\ _balances s' o = _balances s o)
  /\ (forall t, _exists t s = true ->
        _owners s' t = _owners s t /\ _fighterAttributes s' t = _fighterAttributes s t)
  /\ (forall h who, In h (handles (_fighterAttributes s' id)) ->
        (canRead s' h who = true <-> canRead s h who = true \/ who = sender \/ who = this))
  /\ (forall h who, ~ In h (handles (_fighterAttributes s' id)) ->
        canRead s' h who = canRead s h who).
Proof.
  intros Hreach Hrun. pose proof (reachable_inv _ _ Hreach) as [Hown Hacl].
  apply -> (@external_ok N) in Hrun.
  apply mintFighter_effects in Hrun
    as (-> & Hs0 & _ & _ & Hm & Ho & Hb & _ & _ & Hfa & Hfhe & Hl & Hlo).
  assert (Hfresh : forall t, _exists t s = true -> t <> _nextTokenId s).
  { intros t Ht ->. apply exists_true in Ht. now rewrite next_id_free in Ht. }
  split; [| split; [| split; [| split; [| split; [| split; [| split]]]]]].
  - unfold ownerOf. mred. rewrite Ho, ins_eq.
    destruct (N.eqb_spec sender 0); [congruence |]. mred. now rewrite Ho, ins_eq.
  - unfold fightersOf, gets. now rewrite Hl.
  - now rewrite Hb, ins_eq.
  - exact Hm.
  - intros o Hne. split; [now apply Hlo |]. rewrite Hb. now apply ins_ne.
  - intros t Ht. apply Hfresh in Ht. rewrite Ho, Hfa. now rewrite !ins_ne by congruence.
  - intros h who Hin. rewrite Hfa, ins_eq in Hin. unfold canRead. rewrite Hfhe. split.
    + intros Hg. apply acl_grant_all_true in Hg as [Hg | [-> _]]; [| now right; left].
      apply acl_grant_all_true in Hg as [Hg | [-> _]]; [| now right; right].
      left. exact Hg.
    + intros [Hg | [-> | ->]].
      * do 2 apply acl_grant_all_mono. exact Hg.
      * now apply acl_grant_all_granted.
      * now apply acl_grant_all_mono, acl_grant_all_granted.
  - intros h who Hnin. rewrite Hfa, ins_eq in Hnin. unfold canRead.
    rewrite Hfhe, acl_grant_all_twice.
    destruct (existsb (N.eqb h) (handles (new_attributes a b c))) eqn:Hin.
    + apply handles_existsb in Hin. contradiction.
    + rewrite andb_false_r. apply orb_false_r.
Qed.

Lemma mintFighter_outcome_witness :
  reachable contract_address genesis
  /\ (exists s', external (mintFighter contract_address alice 4 3 3) genesis = (Ok 1, s')
                 /\ ownerOf 1 s' = (Ok alice, s')
                 /\ fightersOf alice s' = (Ok (_ownedTokens genesis alice ++ [1]), s'))
  /\ (exists s', external (mintFighter contract_address carol 4 3 3) minted_state = (Ok 5, s')
                 /\ forall h, In h (handles (_fighterAttributes s' 5)) ->
                      canRead s' h carol = true /\ canRead s' h alice = true).
Proof.
  split; [exact (genesis_reachable contract_address) |]. split.
  - exists (snd (external (mintFighter contract_address alice 4 3 3) genesis)).
    assert (Hrun : external (mintFighter contract_address alice 4 3 3) genesis
                   = (Ok 1, snd (external (mintFighter contract_address alice 4 3 3) genesis)))
      by (vm_compute; reflexivity).
    split; [exact Hrun |].
    destruct (mintFighter_outcome contract_address genesis alice 4 3 3 1 _
                (genesis_reachable contract_address) Hrun) as (H1 & H2 & _).
    split; assumption.
  - exists (snd (external (mintFighter contract_address carol 4 3 3) minted_state)).
    assert (Hrun : external (mintFighter contract_address carol 4 3 3) minted_state
                   = (Ok 5, snd (external (mintFighter contract_address carol 4 3 3)
                                   minted_state)))
      by (vm_compute; reflexivity).
    split; [exact Hrun |]. intros h Hin.
    destruct (mintFighter_outcome contract_address minted_state carol 4 3 3 5 _
                minted_state_reachable Hrun) as (_ & _ & _ & _ & _ & _ & Hgrants & _).
    split; apply (Hgrants h _ Hin).
    + right. left. reflexivity.
    + left. vm_compute in Hin. destruct Hin as [<- | [<- | [<- | []]]];
        vm_compute; reflexivity.
Defined.

(** X12. [updateAttributes] reverts with [FighterDoesNotExist] for a token
    that does not exist and with [NotAuthorized] for an unauthorized caller,
    and it checks the caller before the values: an unauthorized caller gets
    [NotAuthorized] whatever triple it passes.  A successful update changes
    the attribute record of that token only: owners, balances, approvals,
    operators, token lists, counters and the records of all other tokens are
    as before, and [getEncryptedAttributes] returns the three handles the
    update stored, behind which the collaborator records the values of the
    call. *)
Theorem updateAttributes_outcome (this sender : address) (t : uint256) (a b c : uint32)
    (s : state) :
  (_exists t s = false ->
   external (updateAttributes this sender t a b c) s = (Revert (FighterDoesNotExist t), s))
  /\ (_exists t s = true -> _isApprovedOrOwner sender t (_owners s t) s = false ->
      external (updateAttributes this sender t a b c) s = (Revert NotAuthorized, s))
  /\ (forall s',
        external (updateAttributes this sender t a b c) s = (Ok tt, s') ->
        _ownedTokens s' = _ownedTokens s /\ _ownedTokensIndex s' = _ownedTokensIndex s
        /\ _owners s' = _owners s /\ _balances s' = _balances s
        /\ _tokenApprovals s' = _tokenApprovals s
        /\ _operatorApprovals s' = _operatorApprovals s
        /\ _nextTokenId s' = _nextTokenId s /\ _totalMinted s' = _totalMinted s
        /\ (forall x, x <> t -> _fighterAttributes s' x = _fighterAttributes s x)
        /\ getEncryptedAttributes t s' = (Ok (_fighterAttributes s' t), s')
        /\ plaintext (fhe s') (agility (_fighterAttributes s' t)) = a
        /\ plaintext (fhe s') (strength (_fighterAttributes s' t)) = b
        /\ plaintext (fhe s') (stamina (_fighterAttributes s' t)) = c).
Proof.
  unfold external. rewrite updateAttributes_unfold. unfold _exists, zero_address.
  split; [| split].
  - destruct (_owners s t =? 0); [reflexivity | discriminate].
  - intros Hex Hauth. destruct (_owners s t =? 0); [discriminate |]. now rewrite Hauth.
  - intros s'. destruct (N.eqb_spec (_owners s t) 0) as [| Hne]; [stuck |].
    destruct (negb _); [stuck |].
    destruct (_validateDistribution a b c) as [[] | e]; [| stuck].
    intros Hret. injection Hret as <-. unfold updated. simpl_state.
    repeat (split; [reflexivity |]).
    split; [intros x Hx; now apply ins_ne |]. split.
    + unfold getEncryptedAttributes. mred.
      destruct (N.eqb_spec (_owners s t) 0); [congruence |]. reflexivity.
    + rewrite ins_eq, !plaintext_grant_all. apply plaintext_encrypted_new.
Qed.

Lemma updateAttributes_outcome_witness :
  external (updateAttributes contract_address alice 9 4 3 3) minted_state
  = (Revert (FighterDoesNotExist 9), minted_state)
  /\ external (updateAttributes contract_address carol 2 11 0 0) minted_state
     = (Revert NotAuthorized, minted_state)
  /\ _owners rewritten_state = _owners delegated_state.
Proof.
  split; [| split].
  - apply (proj1 (updateAttributes_outcome contract_address alice 9 4 3 3 minted_state)).
    vm_compute. reflexivity.
  - apply (proj1 (proj2 (updateAttributes_outcome contract_address carol 2 11 0 0
                           minted_state))); vm_compute; reflexivity.
  - apply (proj2 (proj2 (updateAttributes_outcome contract_address carol 2 2 5 3
                           delegated_state)) rewritten_state).
    vm_compute. reflexivity.
Defined.

(** X13. A successful transfer of [t] between two distinct owners, from a
    reachable state, removes [t] from the sender's list by moving the last
    token of that list into the slot of [t] and dropping the last slot, and
    appends [t] at the end of the recipient's list; the sender's balance
    falls by one, the recipient's grows by one, and every other list and
    balance and the supply are unchanged. *)
Theorem transfer_moves_token (this : address) (s : state) (sender A B : address)
    (t : uint256) (s' : state) :
  reachable this s -> A <> B ->
  external (transferFrom sender A B t) s = (Ok tt, s') ->
  _ownedTokens s A !! N.to_nat (_ownedTokensIndex s t) = Some t
  /\ (exists lastTok,
        _ownedTokens s A !! Nat.pred (length (_ownedTokens s A)) = Some lastTok
        /\ _ownedTokens s' A
           = take (Nat.pred (length (_ownedTokens s A)))
               (<[N.to_nat (_ownedTokensIndex s t) := lastTok]> (_ownedTokens s A)))
  /\ _ownedTokens s' B = _ownedTokens s B ++ [t]
  /\ 1 <= _balances s A
  /\ _balances s' A = _balances s A - 1
  /\ _balances s' B = _balances s B + 1
  /\ (forall o, o <> A -> o <> B ->
        _ownedTokens s' o = _ownedTokens s o /\ _balances s' o = _balances s o)
  /\ _totalMinted s' = _totalMinted s.
Proof.
  intros Hreach HAB Hrun. pose proof (reachable_inv _ _ Hreach) as [Hinv _].
  apply -> (@external_ok unit) in Hrun. unfold transferFrom in Hrun.
  apply transfer_inversion in Hrun
    as (HB & Hown & HA & _ & s1 & Hbefore & Hb1 & Hb2 & ->).
  assert (Hi : _ownedTokens s A !! N.to_nat (_ownedTokensIndex s t) = Some t).
  { rewrite <- Hown. apply (inv_enum _ Hinv). congruence. }
  pose proof (lookup_lt_Some _ _ _ Hi) as Hlen.
  destruct (lookup_lt_is_Some_2 (_ownedTokens s A)
              (Nat.pred (length (_ownedTokens s A)))) as [lastTok Hlast]; [lia |].
  destruct (beforeTokenTransfer_move s A B t lastTok HAB HA HB Hi Hlast)
    as (s1' & Hbefore' & Hframe & HlB & HlA & Hlo & _).
  rewrite Hbefore in Hbefore'. injection Hbefore' as <-.
  destruct Hframe as [_ Hm _ Hbl _ _ _ _]. rewrite Hbl in *.
  simpl_state. rewrite ?Hbl.
  split; [exact Hi |]. split; [exists lastTok; auto |]. split; [exact HlB |].
  split; [exact Hb1 |].
  split; [now rewrite ins_ne, ins_eq by congruence |].
  split; [now rewrite ins_eq, ins_ne by congruence |].
  split; [| exact Hm].
  intros o Ho1 Ho2. split; [now apply Hlo |]. now rewrite !ins_ne by congruence.
Qed.

Lemma transfer_moves_token_witness :
  reachable contract_address minted_state
  /\ alice <> bob
  /\ external (transferFrom alice alice bob 1) minted_state = (Ok tt, moved_state)
  /\ _ownedTokens moved_state bob = _ownedTokens minted_state bob ++ [1]
  /\ _balances moved_state alice = _balances minted_state alice - 1.
Proof.
  assert (Hne : alice <> bob) by (unfold alice, bob; lia).
  assert (Hrun : external (transferFrom alice alice bob 1) minted_state = (Ok tt, moved_state))
    by (vm_compute; reflexivity).
  destruct (transfer_moves_token contract_address minted_state alice alice bob 1 moved_state
              minted_state_reachable Hne Hrun) as (_ & _ & H3 & _ & H5 & _).
  split; [exact minted_state_reachable |]. split; [exact Hne |]. split; [exact Hrun |].
  split; assumption.
Defined.

(** X14. A transfer resets the delegation of the token: after a successful
    transfer of [t] to [B] from a reachable state, a caller other than the
    null address who is neither [B] nor an operator of [B] cannot transfer
    [t], whether it was the previous owner, the previously approved address
    or an operator of the previous owner; its attempt reverts with
    [NotAuthorized]. *)
Theorem transfer_resets_delegation (this : address) (s : state) (sender A B : address)
    (t : uint256) (s' : state) (spender to : address) :
  reachable this s ->
  external (transferFrom sender A B t) s = (Ok tt, s') ->
  spender <> 0 -> spender <> B -> _operatorApprovals s B spender = false -> to <> 0 ->
  external (transferFrom spender B to t) s' = (Revert NotAuthorized, s').
Proof.
  intros Hreach Hrun Hs0 HsB Hop Hto. pose proof (reachable_inv _ _ Hreach) as [Hinv _].
  apply (transferFrom_step this) in Hrun as [Hrun Hstep].
  assert (Hreach' : reachable this s') by (rewrite <- Hstep; now apply reachable_step).
  pose proof (transfer_effects _ _ _ _ _ _ Hinv Hrun) as (_ & _ & Ho & Hta & Hoa & _).
  pose proof (transfer_inversion _ _ _ _ _ _ Hrun) as (HB & _).
  assert (HownB : _owners s' t = B) by (rewrite Ho; apply ins_eq).
  apply transferFrom_unauthorized; try assumption.
  - apply exists_true. congruence.
  - unfold _isApprovedOrOwner. rewrite Hta, Hoa, ins_eq, Hop.
    destruct (N.eqb_spec spender B); [congruence |].
    destruct (N.eqb_spec 0 spender); [congruence | reflexivity].
Qed.

Lemma transfer_resets_delegation_witness :
  reachable contract_address minted_state
  /\ external (transferFrom alice alice bob 1) minted_state = (Ok tt, moved_state)
  /\ external (transferFrom alice bob alice 1) moved_state = (Revert NotAuthorized, moved_state).
Proof.
  assert (Hrun : external (transferFrom alice alice bob 1) minted_state = (Ok tt, moved_state))
    by (vm_compute; reflexivity).
  split; [exact minted_state_reachable |]. split; [exact Hrun |].
  apply (transfer_resets_delegation contract_address minted_state alice alice bob 1 moved_state
           alice alice minted_state_reachable Hrun);
    [unfold alice; lia | unfold alice, bob; lia | vm_compute; reflexivity | unfold alice; lia].
Defined.

(** X15. The approval slot of a token without an approved address holds the
    null address, and [_isApprovedOrOwner] compares the caller with that
    slot: a call whose [msg.sender] is the null address therefore passes the
    authorization of every existing token that has no approved address, and
    from a reachable state its [transferFrom] to a recipient other than null
    succeeds. *)
Theorem null_caller_passes_authorization (this : address) (s : state) (t : uint256)
    (to : address) :
  reachable this s ->
  _exists t s = true -> _tokenApprovals s t = 0 -> to <> 0 ->
  _isApprovedOrOwner 0 t (_owners s t) s = true
  /\ exists s',
       external (transferFrom 0 (_owners s t) to t) s = (Ok tt, s')
       /\ _owners s' t = to.
Proof.
  intros Hreach Hex Happ Hto. pose proof (reachable_inv _ _ Hreach) as [Hinv _].
  assert (Hauth : _isApprovedOrOwner 0 t (_owners s t) s = true).
  { unfold _isApprovedOrOwner. rewrite Happ. simpl. now rewrite orb_true_r. }
  split; [exact Hauth |].
  destruct (transferFrom_succeeds 0 (_owners s t) to t s Hinv Hto Hex eq_refl Hauth)
    as [s' Hrun].
  exists s'. split; [exact Hrun |].
  apply (transferFrom_step this) in Hrun as [Hrun _].
  pose proof (transfer_effects _ _ _ _ _ _ Hinv Hrun) as (_ & _ & -> & _).
  apply ins_eq.
Qed.

Lemma null_caller_passes_authorization_witness :
  reachable contract_address minted_state
  /\ _exists 2 minted_state = true
  /\ _tokenApprovals minted_state 2 = 0
  /\ _isApprovedOrOwner 0 2 (_owners minted_state 2) minted_state = true.
Proof.
  assert (H1 : _exists 2 minted_state = true) by (vm_compute; reflexivity).
  assert (H2 : _tokenApprovals minted_state 2 = 0) by (vm_compute; reflexivity).
  assert (H3 : bob <> 0) by (unfold bob; lia).
  split; [exact minted_state_reachable |]. split; [exact H1 |]. split; [exact H2 |].
  exact (proj1 (null_caller_passes_authorization contract_address minted_state 2 bob
                  minted_state_reachable H1 H2 H3)).
Defined.

Lemma dispatch_approvals this sender c s r s' :
  ownership_inv s ->
  (forall t, _tokenApprovals s t <> 0 -> _owners s t <> 0) ->
  dispatch this sender c s = (Ok r, s') ->
  forall t, _tokenApprovals s' t <> 0 -> _owners s' t <> 0.
Proof.
  intros Hown Happ. destruct c; unfold dispatch; mred.
  - destruct (mintFighter this sender agilityPoints strengthPoints staminaPoints s)
      as [[id | e] s1] eqn:Hrun; [| stuck].
    intros Hret t. injection Hret as _ <-.
    apply mintFighter_effects in Hrun as (-> & Hs0 & _ & _ & _ & -> & _ & -> & _).
    intros Ht. destruct (N.eq_dec (_nextTokenId s) t) as [<- | Hne]; fsimpl; auto.
  - destruct (updateAttributes this sender tokenId agilityPoints strengthPoints staminaPoints s)
      as [[[] | e] s1] eqn:Hrun; [| stuck].
    intros Hret. injection Hret as _ <-.
    apply updateAttributes_inversion in Hrun as (_ & _ & _ & ->). exact Happ.
  - rewrite allowViewer_unfold.
    destruct (_owners s tokenId =? 0); [stuck |].
    destruct (viewer =? 0); [stuck |].
    destruct (negb _); [stuck |].
    intros Hret. injection Hret as _ <-. exact Happ.
  - rewrite approve_unfold.
    destruct (N.eqb_spec (_owners s tokenId) 0); [stuck |].
    destruct (negb _ && negb _); [stuck |].
    intros Hret t. injection Hret as _ <-. simpl_state.
    destruct (N.eq_dec tokenId t) as [<- | Hne]; fsimpl; auto.
  - unfold setApprovalForAll. mred. intros Hret. injection Hret as _ <-. exact Happ.
  - unfold transferFrom.
    destruct (_transfer sender from to tokenId s) as [[[] | e] s1] eqn:Hrun; [| stuck].
    intros Hret t. injection Hret as _ <-.
    pose proof (transfer_effects _ _ _ _ _ _ Hown Hrun) as (_ & _ & -> & -> & _).
    pose proof (transfer_inversion _ _ _ _ _ _ Hrun) as (Hto & _).
    destruct (N.eq_dec tokenId t) as [<- | Hne]; fsimpl; auto.
  - unfold safeTransferFrom. mred.
    destruct (_transfer sender from to tokenId s) as [[[] | e] s1] eqn:Hrun; [| stuck].
    destruct accepted; mred; [| stuck].
    intros Hret t. injection Hret as _ <-.
    pose proof (transfer_effects _ _ _ _ _ _ Hown Hrun) as (_ & _ & -> & -> & _).
    pose proof (transfer_inversion _ _ _ _ _ _ Hrun) as (Hto & _).
    destruct (N.eq_dec tokenId t) as [<- | Hne]; fsimpl; auto.
Qed.

Lemma reachable_approvals this s :
  reachable this s -> forall t, _tokenApprovals s t <> 0 -> _owners s t <> 0.
Proof.
  intros [txs <-]. unfold run.
  assert (Hall : forall txs s0,
    ownership_inv s0 /\ cipher_inv s0 ->
    (forall t, _tokenApprovals s0 t <> 0 -> _owners s0 t <> 0) ->
    forall t, _tokenApprovals (fold_left (step this) txs s0) t <> 0 ->
              _owners (fold_left (step this) txs s0) t <> 0).
  { clear txs. induction txs as [| tx txs IH]; intros s0 Hinv Happ; [exact Happ |].
    simpl. apply IH; [now apply step_inv |].
    destruct (step_cases this s0 tx) as [[r Hrun] | ->]; [| exact Happ].
    destruct Hinv as [Hown _]. eapply dispatch_approvals; eauto. }
  apply Hall; [apply genesis_inv |]. simpl. congruence.
Qed.

(** X16. In every reachable state only existing tokens carry an approved
    address: [approve] requires the token to exist and nothing else writes an
    approval.  A token therefore starts without an approved address:
    [getApproved] returns the null address right after the mint. *)
Theorem approvals_only_on_existing_tokens (this : address) (s : state) :
  reachable this s ->
  (forall t, _exists t s = false -> _tokenApprovals s t = 0)
  /\ (forall sender a b c id s',
        external (mintFighter this sender a b c) s = (Ok id, s') ->
        getApproved id s' = (Ok 0, s')).
Proof.
  intros Hreach. pose proof (reachable_inv _ _ Hreach) as [Hown _].
  pose proof (reachable_approvals _ _ Hreach) as Happ.
  assert (Hnone : forall t, _exists t s = false -> _tokenApprovals s t = 0).
  { intros t Hex. destruct (N.eq_dec (_tokenApprovals s t) 0) as [| Hne]; [assumption |].
    apply Happ, exists_true in Hne. congruence. }
  split; [exact Hnone |].
  intros sender a b c id s' Hrun. apply -> (@external_ok N) in Hrun.
  apply mintFighter_effects in Hrun as (-> & Hs0 & _ & _ & _ & Ho & _ & Hta & _).
  unfold getApproved. mred. rewrite Ho, ins_eq.
  destruct (N.eqb_spec sender 0); [congruence |]. mred. rewrite Hta.
  rewrite Hnone; [reflexivity |].
  unfold _exists, zero_address. now rewrite next_id_free.
Qed.

Lemma approvals_only_on_existing_tokens_witness :
  reachable contract_address delegated_state
  /\ _exists 7 delegated_state = false
  /\ _tokenApprovals delegated_state 7 = 0.
Proof.
  assert (H1 : _exists 7 delegated_state = false) by (vm_compute; reflexivity).
  split; [exact delegated_state_reachable |]. split; [exact H1 |].
  exact (proj1 (approvals_only_on_existing_tokens contract_address delegated_state
                  delegated_state_reachable) 7 H1).
Defined.
